(** * ThreadSafeCircularBuffer: a bounded blocking queue

    Shallow embedding of the class [ThreadSafeCircularBuffer] (a ring of
    [BUFFER_SIZE] ints guarded by one mutex and two condition variables)
    and proofs of its queue contract.

    The development has two layers.

    - [Buffer]: the fields of the object and the critical section of every
      member function, as a total function on the fields.  Everything a
      member function does to the fields happens while it holds [mtx], so
      one critical section is one atomic transition.  A
      [condition_variable::wait(lock, pred)] whose predicate is false
      releases the mutex without touching the fields: the outcome
      [Blocked].

    - [Monitor]: threads, the two condition variables and the
      notifications that the member functions issue after unlocking, as a
      step relation over a pool of threads.  Its critical sections are
      those of [Buffer].

    - [Wakeups]: the accounting of suspended, awake and notifying threads
      that shows that no wake-up of the monitor is lost.

    - [Statements]: the member functions statement by statement, with the
      mutex as a field, to show that the critical sections are atomic.

    The other three containers of the repository, each a standard container
    or a linked list behind one mutex, follow in [Deque], [PriorityQueue] and
    [LinkedList].

    The definitions come first, the facts after them: the representation
    invariant of the ring, the queue contract on sequential histories, the
    shutdown protocol on the threads, and then the facts about wake-ups,
    snapshots and the three other containers. *)

From Stdlib Require Import ZArith Lia List Bool Sorted.
From stdpp Require Import base list gmap.

Local Open Scope Z_scope.

Module Buffer.

(** [#define BUFFER_SIZE 5] *)
Definition BUFFER_SIZE : Z := 5.

(** The data members the mutex protects.  [in] is a reserved word, hence
    [in_].  [buffer] is the array [int buffer[BUFFER_SIZE]].  The C++ ints are
    integers here: the class computes only with [in], [out] and [count], and
    [array_accesses_in_bounds] shows that they never leave
    [0 .. BUFFER_SIZE], so no int arithmetic of the class can overflow. *)
Record state := mkState {
  buffer : list Z;
  in_ : Z;
  out : Z;
  count : Z;
  closed : bool
}.

(** The default member initialisers: [in = 0, out = 0, count = 0],
    [closed = false].  The array has no initialiser, so its five cells hold
    whatever [garbage] was in memory. *)
Definition construct (garbage : list Z) : state :=
  {| buffer := garbage; in_ := 0; out := 0; count := 0; closed := false |}.

(** What one execution of a critical section yields: either the wait
    predicate was false and the caller is suspended with the fields
    untouched, or the function returns [r] and leaves the fields as [s']. *)
Inductive outcome (R : Type) : Type :=
| Blocked
| Returned (r : R) (s' : state).
Arguments Blocked {R}.
Arguments Returned {R} r s'.

(** [bool push(int value)].  The predicate of [not_full.wait] is
    [count < BUFFER_SIZE || closed].  A store outside the array, undefined in
    C++, is a store that does nothing here; [array_accesses_in_bounds] shows
    that [in] is always a valid index. *)
Definition push (value : Z) (s : state) : outcome bool :=
  if (count s <? BUFFER_SIZE) || closed s then
    if closed s then Returned false s
    else
      Returned true
        {| buffer := <[Z.to_nat (in_ s) := value]> (buffer s);
           in_ := Z.rem (in_ s + 1) BUFFER_SIZE;
           out := out s;
           count := count s + 1;
           closed := closed s |}
  else Blocked.

(** [bool pop(int& value)].  The predicate of [not_empty.wait] is
    [count > 0 || closed].  The reference parameter is modelled by passing
    the caller's variable in ([value]) and returning, next to the [bool],
    what the variable holds when [pop] returns.  A read outside the array,
    undefined in C++, reads 0 here; [array_accesses_in_bounds] shows that
    [out] is always a valid index. *)
Definition pop (value : Z) (s : state) : outcome (bool * Z) :=
  if (0 <? count s) || closed s then
    if count s =? 0 then Returned (false, value) s
    else
      Returned (true, nth (Z.to_nat (out s)) (buffer s) 0)
        {| buffer := buffer s;
           in_ := in_ s;
           out := Z.rem (out s + 1) BUFFER_SIZE;
           count := count s - 1;
           closed := closed s |}
  else Blocked.

(** [bool empty() const] *)
Definition empty (s : state) : bool := count s =? 0.

(** [bool full() const] *)
Definition full (s : state) : bool := count s =? BUFFER_SIZE.

(** The critical section of [void close()]. *)
Definition close (s : state) : state :=
  {| buffer := buffer s; in_ := in_ s; out := out s; count := count s;
     closed := true |}.

(** [size_t size() const]: [static_cast<size_t>(count)] is the value of
    [count] modulo 2^64. *)
Definition size (s : state) : Z := count s mod 2 ^ 64.

(** ** Calls and their results *)

Inductive op : Type :=
| Push (value : Z)
| Pop (value : Z)
| Close
| Size
| Empty
| Full.

Inductive result : Type :=
| RBlocked
| RPush (accepted : bool)
| RPop (got : bool) (value : Z)
| RClose
| RSize (n : Z)
| RBool (b : bool).

(** One critical section executed on [s]. *)
Definition step (o : op) (s : state) : result * state :=
  match o with
  | Push v =>
      match push v s with
      | Blocked => (RBlocked, s)
      | Returned r s' => (RPush r, s')
      end
  | Pop x =>
      match pop x s with
      | Blocked => (RBlocked, s)
      | Returned (r, x') s' => (RPop r x', s')
      end
  | Close => (RClose, close s)
  | Size => (RSize (size s), s)
  | Empty => (RBool (empty s), s)
  | Full => (RBool (full s), s)
  end.

(** A history: the critical sections in the order in which the mutex
    serialised them, each with what it returned. *)
Fixpoint run (ops : list op) (s : state) : list (op * result) * state :=
  match ops with
  | [] => ([], s)
  | o :: ops' =>
      let '(r, s1) := step o s in
      let '(h, s2) := run ops' s1 in
      ((o, r) :: h, s2)
  end.

(** The values of the accepted pushes of a history, in order. *)
Fixpoint pushed (h : list (op * result)) : list Z :=
  match h with
  | [] => []
  | (Push v, RPush true) :: h' => v :: pushed h'
  | _ :: h' => pushed h'
  end.

(** The values delivered by the successful pops of a history, in order. *)
Fixpoint popped (h : list (op * result)) : list Z :=
  match h with
  | [] => []
  | (Pop _, RPop true v) :: h' => v :: popped h'
  | _ :: h' => popped h'
  end.

(** Has some pop of the history returned end-of-stream? *)
Fixpoint drained (h : list (op * result)) : bool :=
  match h with
  | [] => false
  | (Pop _, RPop false _) :: _ => true
  | _ :: h' => drained h'
  end.

(** The fields after the stores of an accepted [push], and after those of a
    successful [pop]. *)
Definition pushed_state (v : Z) (s : state) : state :=
  {| buffer := <[Z.to_nat (in_ s) := v]> (buffer s);
     in_ := Z.rem (in_ s + 1) BUFFER_SIZE;
     out := out s;
     count := count s + 1;
     closed := closed s |}.

Definition popped_state (s : state) : state :=
  {| buffer := buffer s;
     in_ := in_ s;
     out := Z.rem (out s + 1) BUFFER_SIZE;
     count := count s - 1;
     closed := closed s |}.

(** ** The queue a state represents *)

(** The cell [k] places after [out], going round the ring. *)
Definition cell (s : state) (k : Z) : Z :=
  nth (Z.to_nat ((out s + k) mod BUFFER_SIZE)) (buffer s) 0.

(** The [count] held values, oldest first. *)
Definition contents (s : state) : list Z :=
  cell s <$> seqZ 0 (count s).

(** What the specification means by a queue of capacity [n]: at every point
    of its life it holds at most [n] values, [full()] answers [true] exactly
    when it holds [n], an open queue that holds fewer than [n] accepts a
    push at once (the value is stored and [count] grows by one), and an open
    queue that holds [n] makes the pusher wait. *)
Definition has_capacity (n : Z) (s : state) : Prop :=
  forall ops,
    count (run ops s).2 <= n /\
    (full (run ops s).2 = true <-> count (run ops s).2 = n) /\
    (closed (run ops s).2 = false -> count (run ops s).2 < n ->
     forall v,
       push v (run ops s).2 = Returned true (pushed_state v (run ops s).2)) /\
    (closed (run ops s).2 = false -> count (run ops s).2 = n ->
     forall v, push v (run ops s).2 = Blocked).

(** The representation invariant of the ring. *)
Record ring (s : state) : Prop := mkRing {
  ring_length : Z.of_nat (length (buffer s)) = BUFFER_SIZE;
  ring_out : 0 <= out s < BUFFER_SIZE;
  ring_count : 0 <= count s <= BUFFER_SIZE;
  ring_in : in_ s = (out s + count s) mod BUFFER_SIZE
}.

End Buffer.

Module Monitor.
Import Buffer.

(** The two [std::condition_variable] members. *)
Inductive condvar : Type := not_full | not_empty.

(** Where a thread stands with respect to the buffer.  The stretch of a
    member function between acquiring [mtx] and releasing it (by
    [unlock], by leaving the scope of the lock, or inside [wait]) is a single
    transition, [Enter o]; the notifications come after the mutex is
    released and are transitions of their own. *)
Inductive pc : Type :=
| Idle                       (* outside every member function *)
| Enter (o : op)             (* called [o]; next: lock, test the predicate *)
| Waiting (o : op)           (* suspended inside [wait], mutex released *)
| PushNotify                 (* push, before [not_empty.notify_one()] *)
| PopNotify (value : Z)      (* pop, before [not_full.notify_one()] *)
| CloseNotifyEmpty           (* close, before [not_empty.notify_all()] *)
| CloseNotifyFull            (* close, before [not_full.notify_all()] *)
| Done (r : result).         (* the call has returned [r] *)

(** [push] waits on [not_full], [pop] on [not_empty]; nothing else
    waits. *)
Definition waits_on (cv : condvar) (p : pc) : bool :=
  match cv, p with
  | not_full, Waiting (Push _) => true
  | not_empty, Waiting (Pop _) => true
  | _, _ => false
  end.

(** A thread that leaves [wait] re-acquires the mutex and tests the
    predicate again. *)
Definition wake (p : pc) : pc :=
  match p with
  | Waiting o => Enter o
  | _ => p
  end.

(** [cv.notify_all()]: every thread waiting on [cv] is unblocked. *)
Definition notify_all (cv : condvar) (ths : list pc) : list pc :=
  (fun p => if waits_on cv p then wake p else p) <$> ths.

(** [cv.notify_one()]: if threads are waiting on [cv], one of them is
    unblocked; which one is not specified. *)
Inductive notify_one (cv : condvar) (ths : list pc) : list pc -> Prop :=
| notify_nobody :
    Forall (fun p => waits_on cv p = false) ths ->
    notify_one cv ths ths
| notify_thread (i : nat) (p : pc) :
    ths !! i = Some p ->
    waits_on cv p = true ->
    notify_one cv ths (<[i := wake p]> ths).

(** Where a thread goes after the critical section of [o] gave [r]. *)
Definition after (o : op) (r : result) : pc :=
  match r with
  | RBlocked => Waiting o
  | RPush true => PushNotify
  | RPop true v => PopNotify v
  | RClose => CloseNotifyEmpty
  | _ => Done r
  end.

Definition can_call (p : pc) : bool :=
  match p with
  | Idle | Done _ => true
  | _ => false
  end.

(** The object, the threads that use it, and (as a ghost) the critical
    sections executed so far, oldest first. *)
Record config := mkConfig {
  shared : state;
  threads : list pc;
  history : list (op * result)
}.

Definition set_threads (c : config) (ths : list pc) : config :=
  {| shared := shared c; threads := ths; history := history c |}.

(** [step t c c']: thread [t] takes one transition from [c] to [c']. *)
Inductive step : nat -> config -> config -> Prop :=
| step_call c t p o :
    threads c !! t = Some p ->
    can_call p = true ->
    step t c (set_threads c (<[t := Enter o]> (threads c)))
| step_critical c t o :
    threads c !! t = Some (Enter o) ->
    step t c
      {| shared := (Buffer.step o (shared c)).2;
         threads := <[t := after o (Buffer.step o (shared c)).1]> (threads c);
         history := history c ++ [(o, (Buffer.step o (shared c)).1)] |}
| step_spurious c t o :
    threads c !! t = Some (Waiting o) ->
    step t c (set_threads c (<[t := Enter o]> (threads c)))
| step_push_notify c t ths' :
    threads c !! t = Some PushNotify ->
    notify_one not_empty (<[t := Done (RPush true)]> (threads c)) ths' ->
    step t c (set_threads c ths')
| step_pop_notify c t v ths' :
    threads c !! t = Some (PopNotify v) ->
    notify_one not_full (<[t := Done (RPop true v)]> (threads c)) ths' ->
    step t c (set_threads c ths')
| step_close_notify_empty c t :
    threads c !! t = Some CloseNotifyEmpty ->
    step t c
      (set_threads c (notify_all not_empty (<[t := CloseNotifyFull]> (threads c))))
| step_close_notify_full c t :
    threads c !! t = Some CloseNotifyFull ->
    step t c
      (set_threads c (notify_all not_full (<[t := Done RClose]> (threads c)))).

(** A freshly constructed buffer and [n] threads that have not called
    anything yet. *)
Definition init (garbage : list Z) (n : nat) : config :=
  {| shared := construct garbage; threads := replicate n Idle; history := [] |}.

Inductive reachable (garbage : list Z) (n : nat) : config -> Prop :=
| reachable_init : reachable garbage n (init garbage n)
| reachable_step t c c' :
    reachable garbage n c -> step t c c' -> reachable garbage n c'.

(** No thread is suspended on [cv]. *)
Definition nobody_waits (cv : condvar) (ths : list pc) : Prop :=
  Forall (fun p => waits_on cv p = false) ths.

(** How far a thread has got through [close()]: 1 once [closed] is set,
    2 once [not_empty] has been notified, 3 once [not_full] has been
    notified and the call has returned; 0 for a thread that is not in
    [close()]. *)
Definition progress (p : pc) : nat :=
  match p with
  | CloseNotifyEmpty => 1
  | CloseNotifyFull => 2
  | Done RClose => 3
  | _ => 0
  end.

Definition max_progress (ths : list pc) : nat :=
  foldr Nat.max 0%nat (progress <$> ths).

(** What the progress of the closing threads guarantees. *)
Record close_inv (c : config) : Prop := mkCloseInv {
  inv_closed :
    (1 <= max_progress (threads c))%nat -> closed (shared c) = true;
  inv_not_empty :
    (2 <= max_progress (threads c))%nat -> nobody_waits not_empty (threads c);
  inv_not_full :
    (3 <= max_progress (threads c))%nat -> nobody_waits not_full (threads c)
}.

End Monitor.

Module Wakeups.
Import Buffer Monitor.

(** How many threads of the pool satisfy [f]. *)
Fixpoint tally (f : pc -> bool) (ths : list pc) : Z :=
  match ths with
  | [] => 0
  | p :: ths' => (if f p then 1 else 0) + tally f ths'
  end.

(** A thread that is about to lock the mutex and test the predicate of
    [push], respectively of [pop]. *)
Definition entering_push (p : pc) : bool :=
  match p with
  | Enter (Push _) => true
  | _ => false
  end.

Definition entering_pop (p : pc) : bool :=
  match p with
  | Enter (Pop _) => true
  | _ => false
  end.

(** A thread that owes a [not_empty.notify_one()], respectively a
    [not_full.notify_one()]. *)
Definition notifying_push (p : pc) : bool :=
  match p with
  | PushNotify => true
  | _ => false
  end.

Definition notifying_pop (p : pc) : bool :=
  match p with
  | PopNotify _ => true
  | _ => false
  end.

(** A thread inside [close()] that has not yet notified [not_empty],
    respectively [not_full]. *)
Definition before_notify_empty (p : pc) : bool :=
  match p with
  | CloseNotifyEmpty => true
  | _ => false
  end.

Definition before_notify_full (p : pc) : bool :=
  match p with
  | CloseNotifyEmpty | CloseNotifyFull => true
  | _ => false
  end.

(** A thread that is not running: outside every member function, or
    suspended in a [wait]. *)
Definition resting (p : pc) : bool :=
  match p with
  | Idle | Done _ | Waiting _ => true
  | _ => false
  end.

Definition quiescent (ths : list pc) : Prop :=
  Forall (fun p => resting p = true) ths.

(** No wake-up is lost.  While a consumer is suspended, every held value
    is matched by a pending [not_empty.notify_one()] or by a consumer that
    is awake and about to test its predicate; while a producer is suspended
    on an open buffer, every free cell is matched by a pending
    [not_full.notify_one()] or by an awake producer.  After [close()] has set
    the flag, threads stay suspended only as long as the closing thread
    still owes them its broadcast. *)
Record wake_inv (c : config) : Prop := mkWakeInv {
  wake_consumers :
    0 < tally (waits_on not_empty) (threads c) ->
    count (shared c) <=
      tally notifying_push (threads c) + tally entering_pop (threads c);
  wake_producers :
    closed (shared c) = false ->
    0 < tally (waits_on not_full) (threads c) ->
    BUFFER_SIZE - count (shared c) <=
      tally notifying_pop (threads c) + tally entering_push (threads c);
  wake_closed_consumers :
    closed (shared c) = true ->
    0 < tally (waits_on not_empty) (threads c) ->
    0 < tally before_notify_empty (threads c);
  wake_closed_producers :
    closed (shared c) = true ->
    0 < tally (waits_on not_full) (threads c) ->
    0 < tally before_notify_full (threads c);
  wake_closing :
    0 < tally before_notify_full (threads c) -> closed (shared c) = true
}.

End Wakeups.

(** * ThreadSafeDeque

    Every member function of [ThreadSafeDeque<T>] holds [mtx] from its first
    statement to its return, so each call is one atomic transition of the
    [std::deque<T>] it wraps.  The deque is the list of its elements, front
    first. *)
Module Deque.
Section deque.
Context {T : Type}.

(** [ThreadSafeDeque() = default]: an empty [std::deque]. *)
Definition construct : list T := [].

(** [void push_front(const T&)] and [void push_front(T&&)]. *)
Definition push_front (value : T) (data : list T) : list T := value :: data.

(** [void push_back(const T&)] and [void push_back(T&&)]. *)
Definition push_back (value : T) (data : list T) : list T := data ++ [value].

(** [bool empty() const] *)
Definition empty (data : list T) : bool :=
  match data with
  | [] => true
  | _ :: _ => false
  end.

(** [size_t size() const] *)
Definition size (data : list T) : Z := Z.of_nat (length data).

(** [bool pop_front(T& value)]: the returned triple is the [bool], what the
    caller's variable holds afterwards, and the deque. *)
Definition pop_front (value : T) (data : list T) : bool * T * list T :=
  if empty data then (false, value, data)
  else (true, hd value data, tl data).

(** [bool pop_back(T& value)] *)
Definition pop_back (value : T) (data : list T) : bool * T * list T :=
  if empty data then (false, value, data)
  else (true, List.last data value, removelast data).

Inductive op : Type :=
| PushFront (value : T)
| PushBack (value : T)
| PopFront (value : T)
| PopBack (value : T)
| Empty
| Size.

Inductive result : Type :=
| RVoid
| RPop (got : bool) (value : T)
| RBool (b : bool)
| RSize (n : Z).

Definition step (o : op) (data : list T) : result * list T :=
  match o with
  | PushFront v => (RVoid, push_front v data)
  | PushBack v => (RVoid, push_back v data)
  | PopFront x => let '(b, x', d') := pop_front x data in (RPop b x', d')
  | PopBack x => let '(b, x', d') := pop_back x data in (RPop b x', d')
  | Empty => (RBool (empty data), data)
  | Size => (RSize (size data), data)
  end.

(** The calls in the order in which the mutex serialised them. *)
Fixpoint run (ops : list op) (data : list T) : list (op * result) * list T :=
  match ops with
  | [] => ([], data)
  | o :: ops' =>
      let '(r, d1) := step o data in
      let '(h, d2) := run ops' d1 in
      ((o, r) :: h, d2)
  end.

(** The values pushed, at either end, and the values popped, from either
    end, in the order of the calls. *)
Fixpoint pushed (h : list (op * result)) : list T :=
  match h with
  | [] => []
  | (PushFront v, _) :: h' => v :: pushed h'
  | (PushBack v, _) :: h' => v :: pushed h'
  | _ :: h' => pushed h'
  end.

Fixpoint popped (h : list (op * result)) : list T :=
  match h with
  | [] => []
  | (_, RPop true v) :: h' => v :: popped h'
  | _ :: h' => popped h'
  end.

(** The same call at the other end of the deque. *)
Definition mirror (o : op) : op :=
  match o with
  | PushFront v => PushBack v
  | PushBack v => PushFront v
  | PopFront x => PopBack x
  | PopBack x => PopFront x
  | Empty => Empty
  | Size => Size
  end.

(** A call that uses the deque as a queue: in at the back, out at the
    front. *)
Definition queue_op (o : op) : bool :=
  match o with
  | PushFront _ | PopBack _ => false
  | _ => true
  end.

End deque.
Arguments op : clear implicits.
Arguments result : clear implicits.
End Deque.

(** * ThreadSafePriorityQueue

    The class wraps a [std::priority_queue<T>] and holds [mtx] during every
    member function.  It is modelled at [T = int], where the test uses it,
    with the order of the integers.  The standard container is taken by its
    contract: it holds a bag of values, [top()] is a greatest one and [pop()]
    removes it; the bag is the list of the held values, in no particular
    order. *)
Module PriorityQueue.

(** [std::priority_queue::push]. *)
Definition pq_push (value : Z) (pq : list Z) : list Z := value :: pq.

(** [std::priority_queue::top] on a non-empty queue: a greatest held value.
    (On an empty queue [top()] is undefined; the class never calls it
    there.) *)
Definition pq_top (pq : list Z) : Z :=
  match pq with
  | [] => 0
  | x :: pq' => foldr Z.max x pq'
  end.

(** Removes one occurrence of [x]. *)
Fixpoint remove_one (x : Z) (pq : list Z) : list Z :=
  match pq with
  | [] => []
  | y :: pq' => if y =? x then pq' else y :: remove_one x pq'
  end.

(** [std::priority_queue::pop]: removes the top value. *)
Definition pq_pop (pq : list Z) : list Z := remove_one (pq_top pq) pq.

(** [std::priority_queue::empty] and [size]. *)
Definition pq_empty (pq : list Z) : bool :=
  match pq with
  | [] => true
  | _ :: _ => false
  end.

Definition pq_size (pq : list Z) : Z := Z.of_nat (length pq).

(** [ThreadSafePriorityQueue() = default] *)
Definition construct : list Z := [].

(** [void push(const T&)] and [void push(T&&)]. *)
Definition push (value : Z) (pq : list Z) : list Z := pq_push value pq.

(** [bool pop(T& value)]: the [bool], what the caller's variable holds
    afterwards, and the queue. *)
Definition pop (value : Z) (pq : list Z) : bool * Z * list Z :=
  if pq_empty pq then (false, value, pq)
  else (true, pq_top pq, pq_pop pq).

(** [bool empty() const] *)
Definition empty (pq : list Z) : bool := pq_empty pq.

(** [size_t size() const] *)
Definition size (pq : list Z) : Z := pq_size pq.

Inductive op : Type :=
| Push (value : Z)
| Pop (value : Z)
| Empty
| Size.

Inductive result : Type :=
| RVoid
| RPop (got : bool) (value : Z)
| RBool (b : bool)
| RSize (n : Z).

Definition step (o : op) (pq : list Z) : result * list Z :=
  match o with
  | Push v => (RVoid, push v pq)
  | Pop x => let '(b, x', pq') := pop x pq in (RPop b x', pq')
  | Empty => (RBool (empty pq), pq)
  | Size => (RSize (size pq), pq)
  end.

Fixpoint run (ops : list op) (pq : list Z) : list (op * result) * list Z :=
  match ops with
  | [] => ([], pq)
  | o :: ops' =>
      let '(r, q1) := step o pq in
      let '(h, q2) := run ops' q1 in
      ((o, r) :: h, q2)
  end.

Fixpoint pushed (h : list (op * result)) : list Z :=
  match h with
  | [] => []
  | (Push v, _) :: h' => v :: pushed h'
  | _ :: h' => pushed h'
  end.

Fixpoint popped (h : list (op * result)) : list Z :=
  match h with
  | [] => []
  | (_, RPop true v) :: h' => v :: popped h'
  | _ :: h' => popped h'
  end.

End PriorityQueue.

(** * ThreadSafeLinkedList

    A singly linked list of heap nodes used as a stack; every member
    function holds [mtx] while it runs.  Pointers are addresses, [nullptr]
    is [None], and the nodes the list has allocated and not yet deleted are
    a finite map from addresses.  Dereferencing an address that holds no
    node is undefined in C++: [Fault].  A loop is given fuel and reports
    [OutOfFuel] when it runs out. *)
Module LinkedList.
Section linked_list.
Context {T : Type}.

(** [struct Node { T data; Node* next; }] *)
Record Node := mkNode {
  data : T;
  next : option positive
}.

(** [Node* head] and the nodes on the heap. *)
Record state := mkState {
  head : option positive;
  nodes : gmap positive Node
}.

Inductive res (A : Type) : Type :=
| Ok (a : A)
| Fault
| OutOfFuel.
Arguments Ok {A} a.
Arguments Fault {A}.
Arguments OutOfFuel {A}.

(** [Node* head = nullptr], nothing allocated. *)
Definition construct : state := {| head := None; nodes := ∅ |}.

(** [void push_front(T value)].  [alloc] is [operator new]: given the
    nodes in use, the address of the new node. *)
Definition push_front
    (alloc : gmap positive Node -> positive) (value : T) (s : state) : state :=
  let newNode := alloc (nodes s) in
  {| head := Some newNode;
     nodes := <[newNode := {| data := value; next := head s |}]> (nodes s) |}.

(** An allocator: an address that the nodes in use do not occupy. *)
Definition next_free (heap : gmap positive Node) : positive :=
  fresh (dom heap).

(** [bool pop_front(T& value)]: the [bool], what the caller's variable
    holds afterwards, and the list. *)
Definition pop_front (value : T) (s : state) : res (bool * T * state) :=
  match head s with
  | None => Ok (false, value, s)
  | Some temp =>
      match nodes s !! temp with
      | None => Fault
      | Some n =>
          Ok (true, data n, {| head := next n; nodes := delete temp (nodes s) |})
      end
  end.

(** [bool empty()] *)
Definition empty (s : state) : bool :=
  match head s with
  | None => true
  | Some _ => false
  end.

(** The loop of [size()]: [while (current) { count++; current =
    current->next; }], with [count] a [size_t]. *)
Fixpoint size_loop
    (fuel : nat) (heap : gmap positive Node) (current : option positive)
    (count : Z) : res Z :=
  match current with
  | None => Ok count
  | Some p =>
      match fuel with
      | O => OutOfFuel
      | S fuel' =>
          match heap !! p with
          | None => Fault
          | Some n => size_loop fuel' heap (next n) ((count + 1) mod 2 ^ 64)
          end
      end
  end.

(** [size_t size()] *)
Definition size (fuel : nat) (s : state) : res Z :=
  size_loop fuel (nodes s) (head s) 0.

(** [~ThreadSafeLinkedList()]: [while (!empty()) { T value;
    pop_front(value); }].  [value] is what the uninitialised local holds. *)
Fixpoint destroy (fuel : nat) (value : T) (s : state) : res state :=
  if empty s then Ok s
  else
    match fuel with
    | O => OutOfFuel
    | S fuel' =>
        match pop_front value s with
        | Ok (_, _, s') => destroy fuel' value s'
        | Fault => Fault
        | OutOfFuel => OutOfFuel
        end
    end.

Inductive op : Type :=
| PushFront (value : T)
| PopFront (value : T)
| Empty.

Inductive result : Type :=
| RVoid
| RPop (got : bool) (value : T)
| RBool (b : bool).

Definition step (alloc : gmap positive Node -> positive) (o : op) (s : state)
    : res (result * state) :=
  match o with
  | PushFront v => Ok (RVoid, push_front alloc v s)
  | PopFront x =>
      match pop_front x s with
      | Ok (b, x', s') => Ok (RPop b x', s')
      | Fault => Fault
      | OutOfFuel => OutOfFuel
      end
  | Empty => Ok (RBool (empty s), s)
  end.

(** The calls in the order in which the mutex serialised them. *)
Fixpoint run (alloc : gmap positive Node -> positive) (ops : list op)
    (s : state) : res (list (op * result) * state) :=
  match ops with
  | [] => Ok ([], s)
  | o :: ops' =>
      match step alloc o s with
      | Ok (r, s1) =>
          match run alloc ops' s1 with
          | Ok (h, s2) => Ok ((o, r) :: h, s2)
          | Fault => Fault
          | OutOfFuel => OutOfFuel
          end
      | Fault => Fault
      | OutOfFuel => OutOfFuel
      end
  end.

(** The list at [p] holds exactly the values [xs], first to last, in
    exactly the nodes of [heap]. *)
Fixpoint is_list
    (heap : gmap positive Node) (p : option positive) (xs : list T) : Prop :=
  match xs with
  | [] => p = None /\ heap = ∅
  | x :: xs' =>
      exists l nxt,
        p = Some l /\ heap !! l = Some {| data := x; next := nxt |} /\
        is_list (delete l heap) nxt xs'
  end.

Definition represents (s : state) (xs : list T) : Prop :=
  is_list (nodes s) (head s) xs.

(** A stack, in the plain sense: the list of its values, top first. *)
Definition stack_step (o : op) (xs : list T) : result * list T :=
  match o with
  | PushFront v => (RVoid, v :: xs)
  | PopFront x =>
      match xs with
      | [] => (RPop false x, [])
      | y :: xs' => (RPop true y, xs')
      end
  | Empty => (RBool (match xs with [] => true | _ => false end), xs)
  end.

Fixpoint stack_run (ops : list op) (xs : list T)
    : list (op * result) * list T :=
  match ops with
  | [] => ([], xs)
  | o :: ops' =>
      let '(r, xs1) := stack_step o xs in
      let '(h, xs2) := stack_run ops' xs1 in
      ((o, r) :: h, xs2)
  end.

End linked_list.
Arguments Node : clear implicits.
Arguments state : clear implicits.
Arguments op : clear implicits.
Arguments result : clear implicits.
Arguments Ok {A} a.
Arguments Fault {A}.
Arguments OutOfFuel {A}.
End LinkedList.

(** * The member functions statement by statement

    In [Monitor] a critical section is one transition.  Here the mutex is a
    field of the configuration and every statement of the member functions
    of [ThreadSafeCircularBuffer] is a transition of its own, so that
    threads interleave between any two statements; that the critical
    sections nevertheless act as the atomic functions of [Buffer] is a
    theorem. *)
Module Statements.
Import Buffer.

(** The statement a thread is about to execute. *)
Inductive pc : Type :=
| Idle
| Done (r : result)
| PushLock (value : Z)     (* push: [unique_lock lock(mtx)] *)
| PushTest (value : Z)     (* the predicate of [not_full.wait], mutex held *)
| PushSleep (value : Z)    (* inside [wait], mutex released *)
| PushRelock (value : Z)   (* woken inside [wait], re-locking *)
| PushClosed (value : Z)   (* [if (closed) return false;] *)
| PushStore (value : Z)    (* [buffer[in] = value;] *)
| PushIn                   (* [in = (in + 1) % BUFFER_SIZE;] *)
| PushCount                (* [++count;] *)
| PushUnlock               (* [lock.unlock();] *)
| PushNotify               (* [not_empty.notify_one(); return true;] *)
| PopLock (value : Z)      (* pop: [unique_lock lock(mtx)] *)
| PopTest (value : Z)      (* the predicate of [not_empty.wait] *)
| PopSleep (value : Z)
| PopRelock (value : Z)
| PopEmpty (value : Z)     (* [if (count == 0) return false;] *)
| PopLoad (value : Z)      (* [value = buffer[out];] *)
| PopOut (value : Z)       (* [out = (out + 1) % BUFFER_SIZE;] *)
| PopCount (value : Z)     (* [--count;] *)
| PopUnlock (value : Z)    (* [lock.unlock();] *)
| PopNotify (value : Z)    (* [not_full.notify_one(); return true;] *)
| CloseLock                (* close: [lock_guard lock(mtx)] *)
| CloseSet                 (* [closed = true;] *)
| CloseUnlock              (* end of the scope of the guard *)
| CloseNotifyEmpty         (* [not_empty.notify_all();] *)
| CloseNotifyFull          (* [not_full.notify_all();] *)
| EmptyLock
| EmptyRead                (* [return count == 0;] *)
| FullLock
| FullRead                 (* [return count == BUFFER_SIZE;] *)
| SizeLock
| SizeRead.                (* [return static_cast<size_t>(count);] *)

(** The first statement of a call. *)
Definition call (o : op) : pc :=
  match o with
  | Push v => PushLock v
  | Pop x => PopLock x
  | Close => CloseLock
  | Size => SizeLock
  | Empty => EmptyLock
  | Full => FullLock
  end.

Definition can_call (p : pc) : bool :=
  match p with
  | Idle | Done _ => true
  | _ => false
  end.

(** A statement that locks the mutex, with the statement that follows. *)
Definition acquire (p : pc) : option pc :=
  match p with
  | PushLock v | PushRelock v => Some (PushTest v)
  | PopLock x | PopRelock x => Some (PopTest x)
  | CloseLock => Some CloseSet
  | EmptyLock => Some EmptyRead
  | FullLock => Some FullRead
  | SizeLock => Some SizeRead
  | _ => None
  end.


(** One statement executed with the mutex held: the next statement, the
    fields, and whether the mutex is still held afterwards. *)
Definition inside (p : pc) (s : state) : option (pc * state * bool) :=
  match p with
  | PushTest v =>
      if (count s <? BUFFER_SIZE) || closed s then Some (PushClosed v, s, true)
      else Some (PushSleep v, s, false)
  | PushClosed v =>
      if closed s then Some (Done (RPush false), s, false)
      else Some (PushStore v, s, true)
  | PushStore v =>
      Some (PushIn,
            {| buffer := <[Z.to_nat (in_ s) := v]> (buffer s); in_ := in_ s;
               out := out s; count := count s; closed := closed s |},
            true)
  | PushIn =>
      Some (PushCount,
            {| buffer := buffer s; in_ := Z.rem (in_ s + 1) BUFFER_SIZE;
               out := out s; count := count s; closed := closed s |},
            true)
  | PushCount =>
      Some (PushUnlock,
            {| buffer := buffer s; in_ := in_ s; out := out s;
               count := count s + 1; closed := closed s |},
            true)
  | PushUnlock => Some (PushNotify, s, false)
  | PopTest x =>
      if (0 <? count s) || closed s then Some (PopEmpty x, s, true)
      else Some (PopSleep x, s, false)
  | PopEmpty x =>
      if count s =? 0 then Some (Done (RPop false x), s, false)
      else Some (PopLoad x, s, true)
  | PopLoad x => Some (PopOut (nth (Z.to_nat (out s)) (buffer s) 0), s, true)
  | PopOut x =>
      Some (PopCount x,
            {| buffer := buffer s; in_ := in_ s;
               out := Z.rem (out s + 1) BUFFER_SIZE;
               count := count s; closed := closed s |},
            true)
  | PopCount x =>
      Some (PopUnlock x,
            {| buffer := buffer s; in_ := in_ s; out := out s;
               count := count s - 1; closed := closed s |},
            true)
  | PopUnlock x => Some (PopNotify x, s, false)
  | CloseSet =>
      Some (CloseUnlock,
            {| buffer := buffer s; in_ := in_ s; out := out s;
               count := count s; closed := true |},
            true)
  | CloseUnlock => Some (CloseNotifyEmpty, s, false)
  | EmptyRead => Some (Done (RBool (count s =? 0)), s, false)
  | FullRead => Some (Done (RBool (count s =? BUFFER_SIZE)), s, false)
  | SizeRead => Some (Done (RSize (count s mod 2 ^ 64)), s, false)
  | _ => None
  end.

Definition waits_on (cv : Monitor.condvar) (p : pc) : bool :=
  match cv, p with
  | Monitor.not_full, PushSleep _ => true
  | Monitor.not_empty, PopSleep _ => true
  | _, _ => false
  end.

Definition wake (p : pc) : pc :=
  match p with
  | PushSleep v => PushRelock v
  | PopSleep x => PopRelock x
  | _ => p
  end.

(** A [notify_one()] statement, with the condition variable and the
    statement that follows; likewise a [notify_all()] statement. *)
Definition signals (p : pc) : option (Monitor.condvar * pc) :=
  match p with
  | PushNotify => Some (Monitor.not_empty, Done (RPush true))
  | PopNotify x => Some (Monitor.not_full, Done (RPop true x))
  | _ => None
  end.

Definition broadcasts (p : pc) : option (Monitor.condvar * pc) :=
  match p with
  | CloseNotifyEmpty => Some (Monitor.not_empty, CloseNotifyFull)
  | CloseNotifyFull => Some (Monitor.not_full, Done RClose)
  | _ => None
  end.

Definition notify_all (cv : Monitor.condvar) (ths : list pc) : list pc :=
  (fun p => if waits_on cv p then wake p else p) <$> ths.

Inductive notify_one (cv : Monitor.condvar) (ths : list pc)
    : list pc -> Prop :=
| notify_nobody :
    Forall (fun p => waits_on cv p = false) ths ->
    notify_one cv ths ths
| notify_thread (i : nat) (p : pc) :
    ths !! i = Some p ->
    waits_on cv p = true ->
    notify_one cv ths (<[i := wake p]> ths).

(** The fields, the thread that holds [mtx] if any, and the threads. *)
Record config := mkConfig {
  fields : state;
  owner : option nat;
  threads : list pc
}.

Definition set_threads (c : config) (ths : list pc) : config :=
  {| fields := fields c; owner := owner c; threads := ths |}.

Inductive step : nat -> config -> config -> Prop :=
| step_call c t p o :
    threads c !! t = Some p ->
    can_call p = true ->
    step t c (set_threads c (<[t := call o]> (threads c)))
| step_acquire c t p p' :
    threads c !! t = Some p ->
    acquire p = Some p' ->
    owner c = None ->
    step t c
      {| fields := fields c; owner := Some t;
         threads := <[t := p']> (threads c) |}
| step_inside c t p p' s' keep :
    threads c !! t = Some p ->
    inside p (fields c) = Some (p', s', keep) ->
    step t c
      {| fields := s'; owner := if keep then owner c else None;
         threads := <[t := p']> (threads c) |}
| step_spurious c t p :
    threads c !! t = Some p ->
    wake p <> p ->
    step t c (set_threads c (<[t := wake p]> (threads c)))
| step_notify_one c t p cv q ths' :
    threads c !! t = Some p ->
    signals p = Some (cv, q) ->
    notify_one cv (<[t := q]> (threads c)) ths' ->
    step t c (set_threads c ths')
| step_notify_all c t p cv q :
    threads c !! t = Some p ->
    broadcasts p = Some (cv, q) ->
    step t c (set_threads c (notify_all cv (<[t := q]> (threads c)))).

Definition init (garbage : list Z) (n : nat) : config :=
  {| fields := construct garbage; owner := None;
     threads := replicate n Idle |}.

Inductive reachable (garbage : list Z) (n : nat) : config -> Prop :=
| reachable_init : reachable garbage n (init garbage n)
| reachable_step t c c' :
    reachable garbage n c -> step t c c' -> reachable garbage n c'.





End Statements.
(** * Facts about the critical sections *)

Import Buffer.

Lemma BUFFER_SIZE_pos : 0 < BUFFER_SIZE.
Proof. reflexivity. Qed.

(** Two offsets less than a full turn apart name different cells. *)
Lemma ring_index_apart (o k n : Z) :
  0 <= k < n -> n < BUFFER_SIZE ->
  (o + k) mod BUFFER_SIZE <> (o + n) mod BUFFER_SIZE.
Proof.
  intros Hk Hn Heq.
  pose proof BUFFER_SIZE_pos as HB.
  assert (Hd : (n - k) mod BUFFER_SIZE = 0).
  { replace (n - k) with ((o + n) - (o + k)) by lia.
    rewrite Zminus_mod, Heq, Z.sub_diag. apply Z.mod_0_l. lia. }
  rewrite Z.mod_small in Hd; lia.
Qed.

Lemma ring_index_range (a : Z) : 0 <= a mod BUFFER_SIZE < BUFFER_SIZE.
Proof. apply Z.mod_pos_bound, BUFFER_SIZE_pos. Qed.

(** On non-negative operands C++'s [%] is the mathematical remainder. *)
Lemma ring_advance (a : Z) :
  0 <= a -> Z.rem (a + 1) BUFFER_SIZE = (a + 1) mod BUFFER_SIZE.
Proof. intros Ha. apply Z.rem_mod_nonneg; [lia | apply BUFFER_SIZE_pos]. Qed.

Lemma nth_insert_same (l : list Z) (i : nat) (v d : Z) :
  (i < length l)%nat -> nth i (<[i := v]> l) d = v.
Proof. intros Hi. by rewrite nth_lookup, list_lookup_insert_eq. Qed.

Lemma nth_insert_other (l : list Z) (i j : nat) (v d : Z) :
  i <> j -> nth j (<[i := v]> l) d = nth j l d.
Proof. intros Hij. by rewrite !nth_lookup, list_lookup_insert_ne. Qed.

Lemma push_cases (v : Z) (s : state) :
  push v s =
    if closed s then Returned false s
    else if count s <? BUFFER_SIZE then Returned true (pushed_state v s)
    else Blocked.
Proof.
  unfold push, pushed_state.
  destruct (closed s), (count s <? BUFFER_SIZE); reflexivity.
Qed.

Lemma pop_cases (x : Z) (s : state) :
  pop x s =
    if count s =? 0 then
      if closed s then Returned (false, x) s else Blocked
    else if (0 <? count s) || closed s then
      Returned (true, nth (Z.to_nat (out s)) (buffer s) 0) (popped_state s)
    else Blocked.
Proof.
  unfold pop, popped_state.
  destruct (Z.eqb_spec (count s) 0) as [->|Hc]; [by destruct (closed s)|].
  reflexivity.
Qed.

Lemma contents_pushed_state (v : Z) (s : state) :
  ring s -> count s < BUFFER_SIZE ->
  contents (pushed_state v s) = contents s ++ [v].
Proof.
  intros [Hlen Hout Hcnt Hin] Hlt.
  unfold contents. cbn [count pushed_state].
  rewrite seqZ_app by lia. rewrite fmap_app. f_equal.
  - apply list_fmap_ext. intros i k Hk%list_elem_of_lookup_2%elem_of_seqZ.
    unfold cell. cbn [buffer out pushed_state].
    apply nth_insert_other. rewrite Hin.
    intros Heq%Z2Nat.inj; try apply ring_index_range.
    symmetry in Heq. revert Heq. apply ring_index_apart; lia.
  - rewrite Z.add_0_l. rewrite seqZ_cons, seqZ_nil by lia. cbn [fmap list_fmap].
    f_equal. unfold cell. cbn [buffer out pushed_state]. rewrite <- Hin.
    apply nth_insert_same.
    pose proof (ring_index_range (out s + count s)). lia.
Qed.

Lemma contents_popped_state (s : state) :
  ring s -> 0 < count s ->
  contents s = nth (Z.to_nat (out s)) (buffer s) 0 :: contents (popped_state s).
Proof.
  intros [Hlen Hout Hcnt Hin] Hlt.
  unfold contents. cbn [count popped_state].
  rewrite seqZ_cons by lia. cbn [fmap list_fmap]. f_equal.
  - unfold cell. by rewrite Z.add_0_r, Z.mod_small.
  - rewrite <- (fmap_add_seqZ 1 0), <- list_fmap_compose.
    replace (Z.pred (count s)) with (count s - 1) by lia.
    apply list_fmap_ext. intros _ k _.
    unfold cell, compose. cbn [buffer out popped_state].
    rewrite ring_advance by lia.
    by rewrite Zplus_mod_idemp_l, Z.add_assoc.
Qed.

Lemma step_Push (v : Z) (s : state) :
  step (Push v) s =
    if closed s then (RPush false, s)
    else if count s <? BUFFER_SIZE then (RPush true, pushed_state v s)
    else (RBlocked, s).
Proof.
  unfold step. rewrite push_cases.
  by destruct (closed s), (count s <? BUFFER_SIZE).
Qed.

Lemma step_Pop (x : Z) (s : state) :
  step (Pop x) s =
    if count s =? 0 then
      if closed s then (RPop false x, s) else (RBlocked, s)
    else if (0 <? count s) || closed s then
      (RPop true (nth (Z.to_nat (out s)) (buffer s) 0), popped_state s)
    else (RBlocked, s).
Proof.
  unfold step. rewrite pop_cases.
  by destruct (count s =? 0), (closed s), (0 <? count s).
Qed.

Lemma ring_construct (garbage : list Z) :
  Z.of_nat (length garbage) = BUFFER_SIZE -> ring (construct garbage).
Proof.
  intros Hlen. pose proof BUFFER_SIZE_pos.
  split; cbn; [done | lia | lia |]. by rewrite Z.mod_0_l by lia.
Qed.

Lemma ring_pushed_state (v : Z) (s : state) :
  ring s -> count s < BUFFER_SIZE -> ring (pushed_state v s).
Proof.
  intros [Hlen Hout Hcnt Hin] Hlt.
  pose proof (ring_index_range (out s + count s)).
  split; cbn [pushed_state buffer in_ out count].
  - by rewrite length_insert.
  - done.
  - lia.
  - rewrite ring_advance by lia.
    by rewrite Hin, Zplus_mod_idemp_l, Z.add_assoc.
Qed.

Lemma ring_popped_state (s : state) :
  ring s -> 0 < count s -> ring (popped_state s).
Proof.
  intros [Hlen Hout Hcnt Hin] Hlt.
  split; cbn [popped_state buffer in_ out count].
  - done.
  - rewrite ring_advance by lia. apply ring_index_range.
  - lia.
  - rewrite ring_advance by lia.
    rewrite Zplus_mod_idemp_l, Hin. f_equal. lia.
Qed.

Lemma ring_close (s : state) : ring s -> ring (close s).
Proof. by intros []. Qed.

Lemma ring_step (o : op) (s : state) : ring s -> ring (step o s).2.
Proof.
  intros Hs. pose proof (ring_count _ Hs) as Hcnt.
  destruct o; try done.
  - rewrite step_Push. destruct (closed s); [done|].
    destruct (Z.ltb_spec (count s) BUFFER_SIZE); [|done].
    by apply ring_pushed_state.
  - rewrite step_Pop. destruct (Z.eqb_spec (count s) 0).
    { by destruct (closed s). }
    destruct ((0 <? count s) || closed s); [|done].
    apply ring_popped_state; [done | lia].
  - by apply ring_close.
Qed.

Lemma run_cons (o : op) (ops : list op) (s : state) :
  run (o :: ops) s =
    ((o, (step o s).1) :: (run ops (step o s).2).1, (run ops (step o s).2).2).
Proof. cbn [run]. by destruct (step o s), (run ops _). Qed.

Lemma run_app (ops1 ops2 : list op) (s : state) :
  run (ops1 ++ ops2) s =
    ((run ops1 s).1 ++ (run ops2 (run ops1 s).2).1, (run ops2 (run ops1 s).2).2).
Proof.
  revert s. induction ops1 as [|o ops1 IH]; intros s.
  - cbn. by destruct (run ops2 s).
  - rewrite <- app_comm_cons, !run_cons, IH. reflexivity.
Qed.

Lemma ring_run (ops : list op) (s : state) : ring s -> ring (run ops s).2.
Proof.
  revert s. induction ops as [|o ops IH]; intros s Hs; [done|].
  rewrite run_cons. apply IH. by apply ring_step.
Qed.

Lemma pushed_cons (e : op * result) (h : list (op * result)) :
  pushed (e :: h) = pushed [e] ++ pushed h.
Proof. by destruct e as [[] [| [] | | | |]]. Qed.

Lemma popped_cons (e : op * result) (h : list (op * result)) :
  popped (e :: h) = popped [e] ++ popped h.
Proof. by destruct e as [[] [| | [] | | |]]. Qed.

(** One critical section, seen on the represented queue: an accepted push
    appends its value, a successful pop removes and returns the oldest
    value, everything else leaves the queue alone. *)
Lemma fifo_step (o : op) (s : state) :
  ring s ->
  contents s ++ pushed [(o, (step o s).1)] =
  popped [(o, (step o s).1)] ++ contents (step o s).2.
Proof.
  intros Hs. pose proof (ring_count _ Hs) as Hcnt.
  destruct o; try (cbn; by rewrite app_nil_r).
  - rewrite step_Push. destruct (closed s); [cbn; by rewrite app_nil_r|].
    destruct (Z.ltb_spec (count s) BUFFER_SIZE); [|cbn; by rewrite app_nil_r].
    cbn [fst snd pushed popped app]. by rewrite contents_pushed_state.
  - rewrite step_Pop. destruct (Z.eqb_spec (count s) 0).
    { destruct (closed s); cbn; by rewrite app_nil_r. }
    destruct (Z.ltb_spec 0 (count s)); [|lia].
    cbn [orb fst snd pushed popped app].
    by rewrite app_nil_r, <- contents_popped_state.
Qed.

Lemma fifo_run (ops : list op) (s : state) :
  ring s ->
  contents s ++ pushed (run ops s).1 =
  popped (run ops s).1 ++ contents (run ops s).2.
Proof.
  revert s. induction ops as [|o ops IH]; intros s Hs.
  - cbn. by rewrite app_nil_r.
  - rewrite run_cons. cbn [fst snd].
    rewrite pushed_cons, popped_cons, app_assoc, (fifo_step o s Hs).
    rewrite <- !app_assoc. f_equal. apply IH. by apply ring_step.
Qed.

(** Once a closed buffer is empty nothing changes any more: pushes are
    rejected and pops report end-of-stream. *)
Lemma close_closed (s : state) : closed s = true -> close s = s.
Proof. destruct s as [b i o c cl]. cbn. by intros ->. Qed.

Lemma step_terminal (o : op) (s : state) :
  closed s = true -> count s = 0 ->
  (step o s).2 = s /\ pushed [(o, (step o s).1)] = [] /\
  popped [(o, (step o s).1)] = [].
Proof.
  intros Hcl Hc. destruct o; try done.
  - by rewrite step_Push, Hcl.
  - by rewrite step_Pop, Hc, Hcl.
  - cbn. by rewrite close_closed.
Qed.

Lemma run_terminal (ops : list op) (s : state) :
  closed s = true -> count s = 0 ->
  (run ops s).2 = s /\ pushed (run ops s).1 = [] /\ popped (run ops s).1 = [].
Proof.
  intros Hcl Hc. induction ops as [|o ops (IH1 & IH2 & IH3)]; [done|].
  destruct (step_terminal o s Hcl Hc) as (H1 & H2 & H3).
  rewrite run_cons. cbn [fst snd].
  rewrite pushed_cons, popped_cons, H1, H2, H3, IH2, IH3. done.
Qed.

(** A pop reports end-of-stream only on a closed, empty buffer. *)
Lemma step_end_of_stream (o : op) (s : state) :
  drained [(o, (step o s).1)] = true -> closed s = true /\ count s = 0.
Proof.
  destruct o; try done. rewrite step_Pop.
  destruct (Z.eqb_spec (count s) 0); [by destruct (closed s)|].
  by destruct ((0 <? count s) || closed s).
Qed.

Lemma drained_cons (e : op * result) (h : list (op * result)) :
  drained (e :: h) = drained [e] || drained h.
Proof. by destruct e as [[] [| | [] | | |]]. Qed.

Lemma drained_run (ops : list op) (s : state) :
  ring s -> drained (run ops s).1 = true ->
  contents s ++ pushed (run ops s).1 = popped (run ops s).1.
Proof.
  revert s. induction ops as [|o ops IH]; intros s Hs; [done|].
  rewrite run_cons. cbn [fst snd].
  rewrite drained_cons, pushed_cons, popped_cons.
  intros [Hd|Hd]%orb_prop.
  - destruct (step_end_of_stream o s Hd) as [Hcl Hc].
    destruct (step_terminal o s Hcl Hc) as (H1 & H2 & H3).
    rewrite H1, H2, H3.
    destruct (run_terminal ops s Hcl Hc) as (_ & -> & ->).
    unfold contents. by rewrite Hc.
  - rewrite app_assoc, (fifo_step o s Hs), <- app_assoc. f_equal.
    apply IH; [by apply ring_step | done].
Qed.

(** Accepted pushes and successful pops are counted by [count]. *)
Lemma count_step (o : op) (s : state) :
  Z.of_nat (length (pushed [(o, (step o s).1)])) -
  Z.of_nat (length (popped [(o, (step o s).1)])) =
  count (step o s).2 - count s.
Proof.
  destruct o; try (cbn; lia).
  - rewrite step_Push. destruct (closed s); [cbn; lia|].
    destruct (count s <? BUFFER_SIZE); cbn; lia.
  - rewrite step_Pop. destruct (count s =? 0).
    { destruct (closed s); cbn; lia. }
    destruct ((0 <? count s) || closed s); cbn; lia.
Qed.

Lemma count_run (ops : list op) (s : state) :
  Z.of_nat (length (pushed (run ops s).1)) -
  Z.of_nat (length (popped (run ops s).1)) =
  count (run ops s).2 - count s.
Proof.
  revert s. induction ops as [|o ops IH]; intros s; [cbn; lia|].
  rewrite run_cons. cbn [fst snd].
  rewrite pushed_cons, popped_cons, !length_app, !Nat2Z.inj_add.
  pose proof (count_step o s). pose proof (IH (step o s).2). lia.
Qed.

Lemma count_bound_step (o : op) (s : state) :
  0 <= count s <= BUFFER_SIZE -> 0 <= count (step o s).2 <= BUFFER_SIZE.
Proof.
  intros Hc. destruct o; try done.
  - rewrite step_Push. destruct (closed s); [done|].
    destruct (Z.ltb_spec (count s) BUFFER_SIZE); cbn; lia.
  - rewrite step_Pop. destruct (Z.eqb_spec (count s) 0).
    { by destruct (closed s). }
    destruct ((0 <? count s) || closed s); cbn; lia.
Qed.

Lemma count_bound_run (ops : list op) (s : state) :
  0 <= count s <= BUFFER_SIZE -> 0 <= count (run ops s).2 <= BUFFER_SIZE.
Proof.
  revert s. induction ops as [|o ops IH]; intros s Hs; [done|].
  rewrite run_cons. apply IH. by apply count_bound_step.
Qed.

Lemma closed_step (o : op) (s : state) :
  closed s = true -> closed (step o s).2 = true.
Proof.
  intros Hcl. destruct o; try done.
  - by rewrite step_Push, Hcl.
  - rewrite step_Pop, Hcl, orb_true_r. by destruct (count s =? 0).
Qed.

Lemma closed_run (ops : list op) (s : state) :
  closed s = true -> closed (run ops s).2 = true.
Proof.
  revert s. induction ops as [|o ops IH]; intros s Hs; [done|].
  rewrite run_cons. apply IH. by apply closed_step.
Qed.

(** Popping a closed buffer until it reports end-of-stream delivers
    exactly its contents. *)
Lemma drain_closed (x : Z) (n : nat) (s : state) :
  ring s -> closed s = true -> count s = Z.of_nat n ->
  (run (repeat (Pop x) n ++ [Pop x]) s).1 =
  ((fun v => (Pop x, RPop true v)) <$> contents s) ++ [(Pop x, RPop false x)].
Proof.
  revert s. induction n as [|n IH]; intros s Hs Hcl Hc.
  - cbn [repeat app]. rewrite run_cons, step_Pop, Hc, Hcl.
    unfold contents. by rewrite Hc.
  - cbn [repeat]. rewrite <- app_comm_cons, run_cons, step_Pop.
    destruct (Z.eqb_spec (count s) 0); [lia|].
    destruct (Z.ltb_spec 0 (count s)); [|lia].
    cbn [orb fst snd].
    rewrite (contents_popped_state s) by (done || lia).
    cbn [fmap list_fmap app]. f_equal.
    apply IH; [apply ring_popped_state; (done || lia) | done | cbn; lia].
Qed.

(** * Facts about the monitor *)

Section monitor_facts.
Import Monitor.

Lemma progress_wake (p : pc) : progress (wake p) = progress p.
Proof. by destruct p. Qed.

Lemma waits_on_wake (cv : condvar) (p : pc) : waits_on cv (wake p) = false.
Proof. by destruct cv, p. Qed.

Lemma waits_on_progress (cv : condvar) (p : pc) :
  waits_on cv p = true -> progress p = 0%nat.
Proof. by destruct cv, p. Qed.

Lemma max_progress_cons (p : pc) (ths : list pc) :
  max_progress (p :: ths) = Nat.max (progress p) (max_progress ths).
Proof. reflexivity. Qed.

Lemma max_progress_lookup (ths : list pc) (t : nat) (p : pc) :
  ths !! t = Some p -> (progress p <= max_progress ths)%nat.
Proof.
  revert t. induction ths as [|q ths IH]; intros [|t] Ht; try done;
    rewrite max_progress_cons.
  - injection Ht as ->. lia.
  - specialize (IH t Ht). lia.
Qed.

Lemma max_progress_insert (ths : list pc) (t : nat) (q : pc) :
  (max_progress (<[t := q]> ths) <= Nat.max (max_progress ths) (progress q))%nat.
Proof.
  revert t. induction ths as [|p ths IH]; intros [|t].
  - cbn. lia.
  - cbn. lia.
  - change (<[0%nat := q]> (p :: ths)) with (q :: ths).
    rewrite !max_progress_cons. lia.
  - change (<[S t := q]> (p :: ths)) with (p :: <[t := q]> ths).
    rewrite !max_progress_cons. specialize (IH t). lia.
Qed.

Lemma max_progress_notify_all (cv : condvar) (ths : list pc) :
  max_progress (notify_all cv ths) = max_progress ths.
Proof.
  unfold max_progress, notify_all. rewrite <- list_fmap_compose.
  f_equal. apply list_fmap_ext. intros _ p _. cbn.
  destruct (waits_on cv p); [apply progress_wake | done].
Qed.

Lemma max_progress_notify_one (cv : condvar) (ths ths' : list pc) :
  notify_one cv ths ths' -> (max_progress ths' <= max_progress ths)%nat.
Proof.
  intros [Hnone | i p Hi Hw]; [done|].
  pose proof (max_progress_insert ths i (wake p)) as Hle.
  rewrite progress_wake, (waits_on_progress _ _ Hw) in Hle. lia.
Qed.

Lemma nobody_waits_insert (cv : condvar) (ths : list pc) (t : nat) (q : pc) :
  nobody_waits cv ths -> waits_on cv q = false ->
  nobody_waits cv (<[t := q]> ths).
Proof. intros Hn Hq. by apply Forall_insert. Qed.

Lemma nobody_waits_notify_all (cv cv' : condvar) (ths : list pc) :
  nobody_waits cv ths -> nobody_waits cv (notify_all cv' ths).
Proof.
  unfold nobody_waits, notify_all. rewrite Forall_fmap. intros Hn.
  eapply Forall_impl; [exact Hn|]. intros p Hp. cbn.
  destruct (waits_on cv' p); [apply waits_on_wake | done].
Qed.

(** [notify_all] leaves no thread suspended on the condition variable. *)
Lemma notify_all_broadcast (cv : condvar) (ths : list pc) :
  nobody_waits cv (notify_all cv ths).
Proof.
  unfold nobody_waits, notify_all. rewrite Forall_fmap.
  apply Forall_true. intros p. cbn.
  destruct (waits_on cv p) eqn:Hp; [apply waits_on_wake | done].
Qed.

Lemma notify_all_lookup (cv : condvar) (ths : list pc) (i : nat) (p : pc) :
  ths !! i = Some p -> waits_on cv p = true ->
  notify_all cv ths !! i = Some (wake p).
Proof.
  intros Hi Hp. unfold notify_all. by rewrite list_lookup_fmap, Hi; cbn; rewrite Hp.
Qed.

Lemma nobody_waits_notify_one (cv cv' : condvar) (ths ths' : list pc) :
  notify_one cv' ths ths' -> nobody_waits cv ths -> nobody_waits cv ths'.
Proof.
  intros [Hnone | i p Hi Hw] Hn; [done|].
  apply nobody_waits_insert; [done | apply waits_on_wake].
Qed.

(** On a closed buffer no critical section suspends its caller. *)
Lemma closed_never_blocks (o : op) (s : state) :
  closed s = true -> (Buffer.step o s).1 <> RBlocked.
Proof.
  intros Hcl. destruct o; try done.
  - by rewrite step_Push, Hcl.
  - rewrite step_Pop, Hcl, orb_true_r. by destruct (count s =? 0).
Qed.

Lemma waits_on_after (cv : condvar) (o : op) (r : result) :
  r <> RBlocked -> waits_on cv (after o r) = false.
Proof. intros Hr. by destruct cv, r as [| [] | [] | | |]. Qed.

Lemma progress_after (o : op) (s : state) :
  (progress (after o (Buffer.step o s).1) <= 1)%nat /\
  (progress (after o (Buffer.step o s).1) = 1%nat ->
   closed (Buffer.step o s).2 = true).
Proof.
  destruct o; try (cbn; split; (lia || done)).
  - rewrite step_Push. destruct (closed s); [cbn; split; (lia || done)|].
    destruct (count s <? BUFFER_SIZE); cbn; split; (lia || done).
  - rewrite step_Pop. destruct (count s =? 0).
    { destruct (closed s); cbn; split; (lia || done). }
    destruct ((0 <? count s) || closed s); cbn; split; (lia || done).
Qed.

Lemma close_inv_init (garbage : list Z) (n : nat) : close_inv (init garbage n).
Proof.
  assert (Hz : max_progress (replicate n Idle) = 0%nat).
  { induction n as [|n IH]; [done|].
    cbn [replicate]. rewrite max_progress_cons, IH. done. }
  split; cbn [init threads]; rewrite Hz; lia.
Qed.

Lemma close_inv_step (t : nat) (c c' : config) :
  close_inv c -> Monitor.step t c c' -> close_inv c'.
Proof.
  intros [I1 I2 I3] Hstep.
  destruct Hstep as [c t p o Ht Hp | c t o Ht | c t o Ht | c t ths' Ht Hn
                    | c t v ths' Ht Hn | c t Ht | c t Ht];
    pose proof (max_progress_lookup _ _ _ Ht) as Hle; cbn [progress] in Hle.
  - (* a new call *)
    pose proof (max_progress_insert (threads c) t (Enter o)) as Hi.
    cbn [progress] in Hi.
    split; cbn [set_threads shared threads]; intros Hk.
    + apply I1. lia.
    + apply nobody_waits_insert; [apply I2; lia | done].
    + apply nobody_waits_insert; [apply I3; lia | done].
  - (* a critical section *)
    pose proof (max_progress_insert (threads c) t
                  (after o (Buffer.step o (shared c)).1)) as Hi.
    destruct (progress_after o (shared c)) as [Hp1 Hp2].
    assert (Hcl : (1 <= max_progress (threads c))%nat ->
                  waits_on not_empty (after o (Buffer.step o (shared c)).1) = false /\
                  waits_on not_full (after o (Buffer.step o (shared c)).1) = false).
    { intros Hk. split; apply waits_on_after, closed_never_blocks, I1, Hk. }
    split; cbn [shared threads]; intros Hk.
    + destruct (Nat.le_gt_cases 1 (max_progress (threads c))) as [Hc|Hc].
      * apply closed_step, I1, Hc.
      * apply Hp2. lia.
    + apply nobody_waits_insert; [apply I2; lia | apply Hcl; lia].
    + apply nobody_waits_insert; [apply I3; lia | apply Hcl; lia].
  - (* a spurious wake-up *)
    pose proof (max_progress_insert (threads c) t (Enter o)) as Hi.
    cbn [progress] in Hi.
    split; cbn [set_threads shared threads]; intros Hk.
    + apply I1. lia.
    + apply nobody_waits_insert; [apply I2; lia | done].
    + apply nobody_waits_insert; [apply I3; lia | done].
  - (* notify_one after a push *)
    pose proof (max_progress_notify_one _ _ _ Hn) as Hm.
    pose proof (max_progress_insert (threads c) t (Done (RPush true))) as Hi.
    cbn [progress] in Hi.
    split; cbn [set_threads shared threads]; intros Hk.
    + apply I1. lia.
    + eapply nobody_waits_notify_one; [exact Hn|].
      apply nobody_waits_insert; [apply I2; lia | done].
    + eapply nobody_waits_notify_one; [exact Hn|].
      apply nobody_waits_insert; [apply I3; lia | done].
  - (* notify_one after a pop *)
    pose proof (max_progress_notify_one _ _ _ Hn) as Hm.
    pose proof (max_progress_insert (threads c) t (Done (RPop true v))) as Hi.
    cbn [progress] in Hi.
    split; cbn [set_threads shared threads]; intros Hk.
    + apply I1. lia.
    + eapply nobody_waits_notify_one; [exact Hn|].
      apply nobody_waits_insert; [apply I2; lia | done].
    + eapply nobody_waits_notify_one; [exact Hn|].
      apply nobody_waits_insert; [apply I3; lia | done].
  - (* close: not_empty.notify_all() *)
    pose proof (max_progress_insert (threads c) t CloseNotifyFull) as Hi.
    cbn [progress] in Hi.
    split; cbn [set_threads shared threads];
      rewrite max_progress_notify_all; intros Hk.
    + apply I1. lia.
    + apply notify_all_broadcast.
    + apply nobody_waits_notify_all.
      apply nobody_waits_insert; [apply I3; lia | done].
  - (* close: not_full.notify_all() *)
    split; cbn [set_threads shared threads]; intros Hk.
    + apply I1. lia.
    + apply nobody_waits_notify_all.
      apply nobody_waits_insert; [apply I2; lia | done].
    + apply notify_all_broadcast.
Qed.

Lemma close_inv_reachable (garbage : list Z) (n : nat) (c : config) :
  reachable garbage n c -> close_inv c.
Proof.
  induction 1 as [|t c c' _ IH Hstep]; [apply close_inv_init|].
  by apply (close_inv_step t c c').
Qed.

(** The critical sections of a concurrent execution, in the order in which
    the mutex serialised them, are a sequential history of the buffer. *)
Lemma history_is_run (garbage : list Z) (n : nat) (c : config) :
  reachable garbage n c ->
  run (history c).*1 (construct garbage) = (history c, shared c).
Proof.
  induction 1 as [|t c c' _ IH Hstep]; [done|].
  destruct Hstep; try exact IH.
  cbn [history shared]. rewrite fmap_app, run_app, IH. cbn [fst snd fmap list_fmap].
  by rewrite run_cons.
Qed.

End monitor_facts.

(** * The queue contract *)

Lemma step_Push_accepted (v : Z) (s : state) :
  closed s = false -> count s < BUFFER_SIZE ->
  step (Push v) s = (RPush true, pushed_state v s).
Proof.
  intros Hcl Hc. rewrite step_Push, Hcl.
  by destruct (Z.ltb_spec (count s) BUFFER_SIZE); [|lia].
Qed.

Lemma step_Pop_success (x : Z) (s : state) :
  0 < count s ->
  step (Pop x) s =
    (RPop true (nth (Z.to_nat (out s)) (buffer s) 0), popped_state s).
Proof.
  intros Hc. rewrite step_Pop.
  destruct (Z.eqb_spec (count s) 0); [lia|].
  by destruct (Z.ltb_spec 0 (count s)); [|lia].
Qed.

(** As long as there is room, an open buffer accepts every push. *)
Lemma pushes_accepted (vs : list Z) (s : state) :
  closed s = false -> count s + Z.of_nat (length vs) <= BUFFER_SIZE ->
  (run (Push <$> vs) s).1 = (fun v => (Push v, RPush true)) <$> vs /\
  closed (run (Push <$> vs) s).2 = false /\
  count (run (Push <$> vs) s).2 = count s + Z.of_nat (length vs).
Proof.
  revert s. induction vs as [|v vs IH]; intros s Hcl Hc.
  - cbn. split_and!; (done || lia).
  - cbn [length] in Hc. cbn [fmap list_fmap].
    rewrite run_cons, step_Push_accepted by (done || lia). cbn [fst snd].
    destruct (IH (pushed_state v s)) as (IH1 & IH2 & IH3); [done | cbn; lia |].
    rewrite IH1, IH2, IH3. cbn [count pushed_state length].
    split_and!; (done || lia).
Qed.

(** Pops deliver the held values, oldest first. *)
Lemma pops_deliver (xs : list Z) (s : state) :
  ring s -> Z.of_nat (length xs) <= count s ->
  (run (Pop <$> xs) s).1 =
    zip_with (fun x v => (Pop x, RPop true v)) xs (contents s).
Proof.
  revert s. induction xs as [|x xs IH]; intros s Hs Hc; [done|].
  cbn [length] in Hc. cbn [fmap list_fmap].
  rewrite run_cons, step_Pop_success by lia. cbn [fst snd].
  rewrite (contents_popped_state s) by (done || lia). cbn [zip_with].
  f_equal. apply IH; [apply ring_popped_state; (done || lia) | cbn; lia].
Qed.

Lemma contents_empty (s : state) : count s = 0 -> contents s = [].
Proof. intros Hc. unfold contents. by rewrite Hc. Qed.

Lemma length_contents (s : state) :
  length (contents s) = Z.to_nat (count s).
Proof. unfold contents. by rewrite length_fmap, length_seqZ. Qed.

Lemma contents_close (s : state) : contents (close s) = contents s.
Proof. reflexivity. Qed.

Lemma pushed_accepted (vs : list Z) :
  pushed ((fun v => (Push v, RPush true)) <$> vs) = vs /\
  popped ((fun v => (Push v, RPush true)) <$> vs) = [].
Proof.
  induction vs as [|v vs [IH1 IH2]]; [done|].
  cbn [fmap list_fmap pushed popped]. by rewrite IH1.
Qed.

(** Values pushed into an empty open buffer come out in the same order. *)
Lemma push_then_pop (vs xs : list Z) (s : state) :
  ring s -> count s = 0 -> closed s = false ->
  Z.of_nat (length vs) <= BUFFER_SIZE -> length xs = length vs ->
  (run ((Push <$> vs) ++ (Pop <$> xs)) s).1 =
    ((fun v => (Push v, RPush true)) <$> vs) ++
    zip_with (fun x v => (Pop x, RPop true v)) xs vs.
Proof.
  intros Hs Hc Hcl Hvs Hxs.
  destruct (pushes_accepted vs s Hcl) as (Hh & _ & Hc'); [lia|].
  pose proof (fifo_run (Push <$> vs) s Hs) as Hq.
  destruct (pushed_accepted vs) as [Hpu Hpo].
  rewrite Hh, Hpu, Hpo, (contents_empty s Hc) in Hq. cbn [app] in Hq.
  rewrite run_app. cbn [fst snd].
  rewrite pops_deliver, <- Hq, Hh; [done | by apply ring_run | lia].
Qed.

(** C1 (FIFO order).  From a freshly constructed buffer, whatever calls
    are made, the values delivered by the successful pops followed by the
    values still held are exactly the values of the accepted pushes, in the
    order of the pushes: pops return the values in the order in which they
    were pushed.  In particular, on an empty open buffer, pushing 1, 2, 3 and
    then popping three times returns 1, 2, 3 in that order. *)
Theorem fifo_order (garbage : list Z) (s : state) :
  Z.of_nat (length garbage) = BUFFER_SIZE -> ring s ->
  (forall ops,
     pushed (run ops (construct garbage)).1 =
     popped (run ops (construct garbage)).1 ++
     contents (run ops (construct garbage)).2) /\
  (count s = 0 -> closed s = false ->
   forall x y z,
     (run [Push 1; Push 2; Push 3; Pop x; Pop y; Pop z] s).1 =
       [(Push 1, RPush true); (Push 2, RPush true); (Push 3, RPush true);
        (Pop x, RPop true 1); (Pop y, RPop true 2); (Pop z, RPop true 3)]).
Proof.
  intros Hlen Hs. split.
  - intros ops. apply (fifo_run ops (construct garbage)).
    by apply ring_construct.
  - intros Hc Hcl x y z.
    by apply (push_then_pop [1; 2; 3] [x; y; z] s).
Qed.

Lemma fifo_order_witness :
  pushed (run [Push 4; Pop 0; Push 5; Push 6; Pop 0]
            (construct [0; 0; 0; 0; 0])).1 = [4; 5] ++ [6] /\
  (run [Push 1; Push 2; Push 3; Pop 7; Pop 8; Pop 9]
     (run [Push 4; Pop 0] (construct [0; 0; 0; 0; 0])).2).1 =
    [(Push 1, RPush true); (Push 2, RPush true); (Push 3, RPush true);
     (Pop 7, RPop true 1); (Pop 8, RPop true 2); (Pop 9, RPop true 3)].
Proof.
  destruct (fifo_order [0; 0; 0; 0; 0]
              (run [Push 4; Pop 0] (construct [0; 0; 0; 0; 0])).2
              eq_refl) as [H1 H2].
  - apply (ring_run [Push 4; Pop 0]), ring_construct. reflexivity.
  - split.
    + apply (H1 [Push 4; Pop 0; Push 5; Push 6; Pop 0]).
    + apply H2; reflexivity.
Defined.

(** C2 (pop, drain precedence).  Whenever [count > 0], closed or not, [pop]
    returns the value at [out], which is the oldest held value, removes it
    and decrements [count].  [pop] returns end-of-stream exactly when the
    buffer is closed and [count = 0], and then it returns at once instead
    of suspending.  So after [close()] the values held at that moment are
    all delivered, in order, before a pop reports end-of-stream. *)
Theorem pop_postcondition (s : state) (x : Z) :
  (0 < count s ->
   pop x s =
     Returned (true, nth (Z.to_nat (out s)) (buffer s) 0) (popped_state s) /\
   count (popped_state s) = count s - 1) /\
  (ring s -> 0 < count s ->
   contents s =
     nth (Z.to_nat (out s)) (buffer s) 0 :: contents (popped_state s)) /\
  ((exists v s', pop x s = Returned (false, v) s') <->
   closed s = true /\ count s = 0) /\
  (closed s = true -> count s = 0 -> pop x s = Returned (false, x) s) /\
  (ring s ->
   (run (repeat (Pop x) (length (contents s)) ++ [Pop x]) (close s)).1 =
     ((fun v => (Pop x, RPop true v)) <$> contents s) ++
     [(Pop x, RPop false x)]).
Proof.
  split_and!.
  - intros Hc. split; [|done]. rewrite pop_cases.
    destruct (Z.eqb_spec (count s) 0); [lia|].
    by destruct (Z.ltb_spec 0 (count s)); [|lia].
  - apply contents_popped_state.
  - rewrite pop_cases. split.
    + intros (v & s' & H). destruct (Z.eqb_spec (count s) 0).
      * by destruct (closed s).
      * by destruct ((0 <? count s) || closed s).
    + intros [-> ->]. by exists x, s.
  - intros Hcl Hc. by rewrite pop_cases, Hc, Hcl.
  - intros Hs. rewrite <- (contents_close s). apply drain_closed.
    + by apply ring_close.
    + done.
    + rewrite length_contents. cbn [count close].
      pose proof (ring_count _ Hs). lia.
Qed.

Lemma pop_postcondition_witness :
  let s := {| buffer := [1; 2; 3; 0; 0]; in_ := 3; out := 1; count := 2;
              closed := true |} in
  let e := {| buffer := [1; 2; 3; 0; 0]; in_ := 3; out := 3; count := 0;
              closed := true |} in
  pop 9 s = Returned (true, 2) (popped_state s) /\
  contents s = 2 :: contents (popped_state s) /\
  pop 9 e = Returned (false, 9) e /\
  (run [Pop 9; Pop 9; Pop 9] (close s)).1 =
    [(Pop 9, RPop true 2); (Pop 9, RPop true 3); (Pop 9, RPop false 9)].
Proof.
  intros s e.
  assert (Hs : ring s) by (by split).
  destruct (pop_postcondition s 9) as (H1 & H2 & _ & _ & H5).
  destruct (pop_postcondition e 9) as (_ & _ & _ & H4 & _).
  split_and!.
  - apply H1. reflexivity.
  - apply H2; [exact Hs | reflexivity].
  - apply H4; reflexivity.
  - apply (H5 Hs).
Defined.

(** C3 (closed-push rejection).  On a closed buffer [push] returns [false]
    and leaves every field as it was: the array, [in], [out], [count] and
    [closed]; this holds whether or not there is room. *)
Theorem closed_push_rejected (s : state) (v : Z) :
  closed s = true -> push v s = Returned false s.
Proof. intros Hcl. by rewrite push_cases, Hcl. Qed.

Lemma closed_push_rejected_witness :
  let s := {| buffer := [1; 2; 0; 0; 0]; in_ := 2; out := 0; count := 2;
              closed := true |} in
  (count s <? BUFFER_SIZE) = true /\ push 7 s = Returned false s.
Proof.
  intros s. split; [reflexivity|].
  apply (closed_push_rejected s 7). reflexivity.
Defined.

(** C4 (capacity bound).  [0 <= count <= BUFFER_SIZE] holds when the buffer
    is constructed and every operation (push, pop, close, size, empty, full)
    preserves it, so it holds after any sequence of operations; in
    particular an accepted push leaves [count <= BUFFER_SIZE]. *)
Theorem capacity_bound :
  (forall garbage, 0 <= count (construct garbage) <= BUFFER_SIZE) /\
  (forall o s,
     0 <= count s <= BUFFER_SIZE ->
     0 <= count (step o s).2 <= BUFFER_SIZE) /\
  (forall garbage ops,
     0 <= count (run ops (construct garbage)).2 <= BUFFER_SIZE) /\
  (forall v s s',
     0 <= count s <= BUFFER_SIZE ->
     push v s = Returned true s' ->
     count s' = count s + 1 /\ count s' <= BUFFER_SIZE).
Proof.
  pose proof BUFFER_SIZE_pos as HB. split; [|split; [|split]].
  - intros garbage. cbn. lia.
  - intros o s. apply count_bound_step.
  - intros garbage ops. apply count_bound_run. cbn. lia.
  - intros v s s' Hc. rewrite push_cases. destruct (closed s); [done|].
    destruct (Z.ltb_spec (count s) BUFFER_SIZE); [|done].
    intros [= <-]. cbn. lia.
Qed.

Lemma capacity_bound_witness :
  let s := {| buffer := [1; 2; 3; 4; 0]; in_ := 4; out := 0; count := 4;
              closed := false |} in
  0 <= count (step (Push 5) s).2 <= BUFFER_SIZE /\
  0 <= count (step (Push 6) (step (Push 5) s).2).2 <= BUFFER_SIZE /\
  count (pushed_state 5 s) = count s + 1 /\
  count (pushed_state 5 s) <= BUFFER_SIZE.
Proof.
  intros s. destruct capacity_bound as (_ & H2 & _ & H4).
  assert (H0 : 0 <= count s <= BUFFER_SIZE) by (by vm_compute).
  split; [|split].
  - apply (H2 (Push 5) s H0).
  - apply (H2 (Push 6)), (H2 (Push 5) s H0).
  - apply (H4 5 s (pushed_state 5 s) H0). reflexivity.
Defined.

(** C5 (no item loss).  At every point of every execution from a freshly
    constructed buffer, the number of accepted pushes minus the number of
    successful pops is [count].  If some pop has reported end-of-stream, the
    values delivered by the successful pops are exactly the values of the
    accepted pushes, each once and in order; in particular there are as
    many of one as of the other. *)
Theorem no_item_loss (garbage : list Z) (ops : list op) :
  Z.of_nat (length garbage) = BUFFER_SIZE ->
  Z.of_nat (length (pushed (run ops (construct garbage)).1)) -
  Z.of_nat (length (popped (run ops (construct garbage)).1)) =
    count (run ops (construct garbage)).2 /\
  (drained (run ops (construct garbage)).1 = true ->
   popped (run ops (construct garbage)).1 =
     pushed (run ops (construct garbage)).1 /\
   length (popped (run ops (construct garbage)).1) =
     length (pushed (run ops (construct garbage)).1)).
Proof.
  intros Hlen. split.
  - rewrite count_run. cbn. lia.
  - intros Hd.
    pose proof (drained_run ops (construct garbage)
                  (ring_construct garbage Hlen) Hd) as Hq.
    rewrite (contents_empty (construct garbage)) in Hq by done.
    cbn [app] in Hq. by rewrite Hq.
Qed.

Lemma no_item_loss_witness :
  let h := (run [Push 1; Push 2; Pop 0; Close; Push 3; Pop 0; Pop 0; Push 4]
              (construct [0; 0; 0; 0; 0])).1 in
  drained h = true /\
  Z.of_nat (length (pushed h)) - Z.of_nat (length (popped h)) = 0 /\
  popped h = pushed h /\ length (popped h) = length (pushed h).
Proof.
  intros h.
  destruct (no_item_loss [0; 0; 0; 0; 0]
              [Push 1; Push 2; Pop 0; Close; Push 3; Pop 0; Pop 0; Push 4]
              eq_refl) as [H1 H2].
  split; [reflexivity|]. split; [exact H1|]. apply H2. reflexivity.
Defined.

(** C6 (close changes only the closed flag).  [close()] leaves the array,
    [in], [out] and [count] as they were and sets [closed]; the held values
    are the same and the oldest is still returned by the next pop.  On an
    already closed buffer it changes nothing at all. *)
Theorem close_frame (s : state) :
  buffer (close s) = buffer s /\
  in_ (close s) = in_ s /\
  out (close s) = out s /\
  count (close s) = count s /\
  closed (close s) = true /\
  contents (close s) = contents s /\
  (forall x, 0 < count s ->
     pop x (close s) =
       Returned (true, nth (Z.to_nat (out s)) (buffer s) 0)
         (popped_state (close s))) /\
  close (close s) = close s /\
  (closed s = true -> close s = s).
Proof.
  split_and!; try reflexivity.
  - intros x Hc. rewrite pop_cases. cbn [count close closed out buffer].
    destruct (Z.eqb_spec (count s) 0); [lia|]. by rewrite orb_true_r.
  - apply close_closed.
Qed.

Lemma close_frame_witness :
  let s := {| buffer := [1; 2; 0; 0; 0]; in_ := 2; out := 0; count := 2;
              closed := false |} in
  pop 9 (close s) = Returned (true, 1) (popped_state (close s)) /\
  close (close s) = close s.
Proof.
  intros s. destruct (close_frame s) as (_ & _ & _ & _ & _ & _ & H7 & _ & _).
  destruct (close_frame (close s)) as (_ & _ & _ & _ & _ & _ & _ & _ & H9).
  split; [apply (H7 9); reflexivity | apply H9; reflexivity].
Defined.

(** C7 (closed is monotonic).  Once [closed] is true, no operation and no
    sequence of operations (push, pop, close, size, empty, full) makes it
    false again; this holds from every state, so in particular from every
    state reached from the initial open one. *)
Theorem closed_monotone (s : state) :
  closed s = true ->
  (forall o, closed (step o s).2 = true) /\
  (forall ops, closed (run ops s).2 = true).
Proof.
  intros Hcl. split; [intros o; by apply closed_step|].
  intros ops. by apply closed_run.
Qed.

Lemma closed_monotone_witness :
  let s := (run [Push 1; Close] (construct [0; 0; 0; 0; 0])).2 in
  closed (construct [0; 0; 0; 0; 0]) = false /\
  closed s = true /\
  closed (run [Pop 0; Pop 0; Push 2; Close; Size; Empty; Full] s).2 = true.
Proof.
  intros s. split; [reflexivity|]. split; [reflexivity|].
  apply (closed_monotone s eq_refl).
Defined.

(** C10 (out-parameter).  When [pop] returns [false], the caller's variable
    holds what it held before the call, and the buffer is unchanged: [pop]
    assigns the out-parameter only when it returns [true]. *)
Theorem pop_false_keeps_value (s s' : state) (x v : Z) :
  pop x s = Returned (false, v) s' -> v = x /\ s' = s.
Proof.
  rewrite pop_cases. destruct (count s =? 0).
  - destruct (closed s); [|done]. by intros [= <- <-].
  - by destruct ((0 <? count s) || closed s).
Qed.

Lemma pop_false_keeps_value_witness :
  let s := {| buffer := [1; 2; 0; 0; 0]; in_ := 2; out := 2; count := 0;
              closed := true |} in
  pop 42 s = Returned (false, 42) s /\ 42 = 42 /\ s = s.
Proof.
  intros s. split; [reflexivity|].
  apply (pop_false_keeps_value s s 42 42). reflexivity.
Defined.

Lemma length_buffer_step (o : op) (s : state) :
  length (buffer (step o s).2) = length (buffer s).
Proof.
  destruct o; try done.
  - rewrite step_Push. destruct (closed s); [done|].
    destruct (count s <? BUFFER_SIZE); [|done]. cbn. apply length_insert.
  - rewrite step_Pop. destruct (count s =? 0).
    { by destruct (closed s). }
    by destruct ((0 <? count s) || closed s).
Qed.

Lemma length_buffer_run (ops : list op) (s : state) :
  length (buffer (run ops s).2) = length (buffer s).
Proof.
  revert s. induction ops as [|o ops IH]; intros s; [done|].
  rewrite run_cons. cbn [snd]. by rewrite IH, length_buffer_step.
Qed.

(** C8, as the code has it.  The capacity is not an argument of the
    constructor: it is the constant [BUFFER_SIZE = 5], the same for every
    buffer and for the whole life of the object.  Whatever memory the buffer
    is constructed in, construction yields an empty open buffer; that buffer
    never holds more than five values, accepts a push at once whenever it is
    open and holds fewer than five, makes the pusher wait when it is open
    and holds five, and reports [full()] exactly at five; five is the only
    capacity it has.  In particular five pushes in a row are all accepted
    and a sixth waits.  The array keeps its extent under every operation. *)
Theorem capacity_is_BUFFER_SIZE
    (garbage : list Z) (ops : list op) (a b c d e v : Z) :
  BUFFER_SIZE = 5 /\
  0 < BUFFER_SIZE /\
  (count (construct garbage) = 0 /\ closed (construct garbage) = false /\
   in_ (construct garbage) = 0 /\ out (construct garbage) = 0 /\
   buffer (construct garbage) = garbage) /\
  has_capacity BUFFER_SIZE (construct garbage) /\
  (forall n, has_capacity n (construct garbage) -> n = BUFFER_SIZE) /\
  (run [Push a; Push b; Push c; Push d; Push e; Push v]
     (construct garbage)).1 =
    [(Push a, RPush true); (Push b, RPush true); (Push c, RPush true);
     (Push d, RPush true); (Push e, RPush true); (Push v, RBlocked)] /\
  count (run [Push a; Push b; Push c; Push d; Push e]
           (construct garbage)).2 = BUFFER_SIZE /\
  length (buffer (run ops (construct garbage)).2) = length garbage.
Proof.
  pose proof BUFFER_SIZE_pos as HB.
  split; [reflexivity|]. split; [reflexivity|]. split; [done|].
  split; [|split; [|split; [|split]]].
  - intros ops'.
    assert (Hc : 0 <= count (run ops' (construct garbage)).2 <= BUFFER_SIZE).
    { apply count_bound_run. cbn. lia. }
    split; [lia|]. split; [unfold full; apply Z.eqb_eq|]. split.
    + intros Hcl Hlt w. rewrite push_cases, Hcl.
      by destruct (Z.ltb_spec (count (run ops' (construct garbage)).2)
                     BUFFER_SIZE); [|lia].
    + intros Hcl Heq w. rewrite push_cases, Hcl.
      by destruct (Z.ltb_spec (count (run ops' (construct garbage)).2)
                     BUFFER_SIZE); [lia|].
  - intros n Hn.
    destruct (Hn [Push 0; Push 0; Push 0; Push 0; Push 0]) as (_ & Hfull & _).
    symmetry. by apply Hfull.
  - reflexivity.
  - reflexivity.
  - apply length_buffer_run.
Qed.

Lemma capacity_is_BUFFER_SIZE_witness :
  has_capacity 5 (construct [0; 0; 0; 0; 0]) /\ 5 = BUFFER_SIZE.
Proof.
  destruct (capacity_is_BUFFER_SIZE [0; 0; 0; 0; 0] [] 1 2 3 4 5 6)
    as (_ & _ & _ & Hcap & Honly & _).
  split; [exact Hcap | exact (Honly 5 Hcap)].
Defined.

(** C8, as the specification states it, fails: a caller who wants a queue
    of capacity 3 cannot have one.  Whatever memory the buffer is
    constructed in, it accepts a fourth value. *)
Lemma capacity_not_caller_supplied :
  0 < 3 /\
  forall garbage,
    count (run [Push 1; Push 2; Push 3; Push 4] (construct garbage)).2 = 4 /\
    full (run [Push 1; Push 2; Push 3] (construct garbage)).2 = false /\
    ~ has_capacity 3 (construct garbage).
Proof.
  split; [reflexivity|]. intros garbage.
  split; [reflexivity|]. split; [reflexivity|].
  intros H. destruct (H [Push 1; Push 2; Push 3; Push 4]) as [Hle _].
  by vm_compute in Hle.
Qed.

Section shutdown.
Import Monitor.

Lemma step_of_close_notify_empty (t : nat) (c c' : config) :
  Monitor.step t c c' -> threads c !! t = Some CloseNotifyEmpty ->
  c' = set_threads c (notify_all not_empty (<[t := CloseNotifyFull]> (threads c))).
Proof.
  intros Hstep Ht. destruct Hstep; try congruence.
  assert (p = CloseNotifyEmpty) as -> by congruence. done.
Qed.

Lemma step_of_close_notify_full (t : nat) (c c' : config) :
  Monitor.step t c c' -> threads c !! t = Some CloseNotifyFull ->
  c' = set_threads c (notify_all not_full (<[t := Done RClose]> (threads c))).
Proof.
  intros Hstep Ht. destruct Hstep; try congruence.
  assert (p = CloseNotifyFull) as -> by congruence. done.
Qed.

Lemma step_of_enter (t : nat) (o : op) (c c' : config) :
  Monitor.step t c c' -> threads c !! t = Some (Enter o) ->
  threads c' !! t = Some (after o (Buffer.step o (shared c)).1).
Proof.
  intros Hstep Ht. destruct Hstep as [c t p o' Ht' Hp | c t o' Ht' | | | | |];
    try congruence.
  - assert (p = Enter o) as -> by congruence. done.
  - assert (o' = o) as -> by congruence. cbn [threads].
    apply list_lookup_insert_eq. by eapply lookup_lt_Some.
Qed.

(** A broadcast moves every thread suspended on the condition variable
    back to the test of its predicate, wherever the notifying thread
    itself stands. *)
Lemma notify_all_wakes (cv : condvar) (ths : list pc) (t i : nat) (q p : pc) :
  ths !! t = Some q -> waits_on cv q = false ->
  ths !! i = Some p -> waits_on cv p = true ->
  forall q', notify_all cv (<[t := q']> ths) !! i = Some (wake p).
Proof.
  intros Ht Hq Hi Hp q'. apply notify_all_lookup; [|done].
  rewrite list_lookup_insert_ne; [done|]. intros ->. congruence.
Qed.

(** C9 (shutdown wake broadcast).  In every reachable configuration:
    when the closing thread executes [not_empty.notify_all()], every thread
    suspended in [pop] is woken and goes back to test its predicate, and
    nobody is left suspended on [not_empty]; likewise
    [not_full.notify_all()] for the threads suspended in [push].  Once a
    call of [close()] has returned, no thread at all is suspended in [push]
    or [pop].  And a thread that tests its predicate on the closed buffer is
    not suspended again. *)
Theorem close_wakes_all_waiters (garbage : list Z) (n : nat) (c : config) :
  reachable garbage n c ->
  (forall t c',
     Monitor.step t c c' -> threads c !! t = Some CloseNotifyEmpty ->
     nobody_waits not_empty (threads c') /\
     forall i x,
       threads c !! i = Some (Waiting (Pop x)) ->
       threads c' !! i = Some (Enter (Pop x))) /\
  (forall t c',
     Monitor.step t c c' -> threads c !! t = Some CloseNotifyFull ->
     nobody_waits not_full (threads c') /\
     forall i v,
       threads c !! i = Some (Waiting (Push v)) ->
       threads c' !! i = Some (Enter (Push v))) /\
  (forall t,
     threads c !! t = Some (Done RClose) ->
     nobody_waits not_full (threads c) /\ nobody_waits not_empty (threads c)) /\
  (closed (shared c) = true ->
   forall t o c',
     Monitor.step t c c' -> threads c !! t = Some (Enter o) ->
     exists r,
       r <> RBlocked /\ threads c' !! t = Some (after o r) /\
       forall cv, waits_on cv (after o r) = false).
Proof.
  intros Hreach. split_and!.
  - intros t c' Hstep Ht.
    rewrite (step_of_close_notify_empty t c c' Hstep Ht).
    cbn [set_threads threads]. split; [apply notify_all_broadcast|].
    intros i x Hi.
    by apply (notify_all_wakes not_empty _ t i CloseNotifyEmpty (Waiting (Pop x))).
  - intros t c' Hstep Ht.
    rewrite (step_of_close_notify_full t c c' Hstep Ht).
    cbn [set_threads threads]. split; [apply notify_all_broadcast|].
    intros i v Hi.
    by apply (notify_all_wakes not_full _ t i CloseNotifyFull (Waiting (Push v))).
  - intros t Ht. destruct (close_inv_reachable _ _ _ Hreach) as [_ I2 I3].
    pose proof (max_progress_lookup _ _ _ Ht) as Hle. cbn [progress] in Hle.
    split; [apply I3 | apply I2]; lia.
  - intros Hcl t o c' Hstep Ht.
    pose proof (closed_never_blocks o (shared c) Hcl) as Hr.
    exists (Buffer.step o (shared c)).1. split; [done|].
    split; [by apply step_of_enter|].
    intros cv. by apply waits_on_after.
Qed.

Lemma close_wakes_all_waiters_witness :
  let g := [0; 0; 0; 0; 0] in
  let h := [(Pop 0, RBlocked); (Pop 0, RBlocked); (Close, RClose)] in
  let c3 := {| shared := close (construct g);
               threads := [Waiting (Pop 0); Waiting (Pop 0); CloseNotifyEmpty];
               history := h |} in
  let c4 := {| shared := close (construct g);
               threads := [Enter (Pop 0); Enter (Pop 0); CloseNotifyFull];
               history := h |} in
  let c5 := {| shared := close (construct g);
               threads := [Enter (Pop 0); Enter (Pop 0); Done RClose];
               history := h |} in
  let c6 := {| shared := close (construct g);
               threads := [Done (RPop false 0); Enter (Pop 0); Done RClose];
               history := h ++ [(Pop 0, RPop false 0)] |} in
  (nobody_waits not_empty (threads c4) /\
   threads c4 !! 1%nat = Some (Enter (Pop 0))) /\
  nobody_waits not_full (threads c5) /\
  (nobody_waits not_full (threads c5) /\ nobody_waits not_empty (threads c5)) /\
  exists r,
    r <> RBlocked /\ threads c6 !! 0%nat = Some (after (Pop 0) r) /\
    forall cv, waits_on cv (after (Pop 0) r) = false.
Proof.
  intros g h c3 c4 c5 c6.
  pose (c0 := init g 3).
  pose (c1 := {| shared := construct g;
                 threads := [Waiting (Pop 0); Idle; Idle];
                 history := [(Pop 0, RBlocked)] |}).
  pose (c2 := {| shared := construct g;
                 threads := [Waiting (Pop 0); Waiting (Pop 0); Idle];
                 history := [(Pop 0, RBlocked); (Pop 0, RBlocked)] |}).
  assert (R1 : reachable g 3 c1).
  { apply (reachable_step g 3 0 (set_threads c0 [Enter (Pop 0); Idle; Idle])).
    - apply (reachable_step g 3 0 c0); [apply reachable_init|].
      apply (step_call c0 0 Idle (Pop 0)); reflexivity.
    - apply (step_critical (set_threads c0 [Enter (Pop 0); Idle; Idle]) 0 (Pop 0)).
      reflexivity. }
  assert (R2 : reachable g 3 c2).
  { apply (reachable_step g 3 1
             (set_threads c1 [Waiting (Pop 0); Enter (Pop 0); Idle])).
    - apply (reachable_step g 3 1 c1); [exact R1|].
      apply (step_call c1 1 Idle (Pop 0)); reflexivity.
    - apply (step_critical
               (set_threads c1 [Waiting (Pop 0); Enter (Pop 0); Idle]) 1 (Pop 0)).
      reflexivity. }
  assert (R3 : reachable g 3 c3).
  { apply (reachable_step g 3 2
             (set_threads c2 [Waiting (Pop 0); Waiting (Pop 0); Enter Close])).
    - apply (reachable_step g 3 2 c2); [exact R2|].
      apply (step_call c2 2 Idle Close); reflexivity.
    - apply (step_critical
               (set_threads c2 [Waiting (Pop 0); Waiting (Pop 0); Enter Close])
               2 Close).
      reflexivity. }
  assert (S34 : Monitor.step 2 c3 c4).
  { apply (step_close_notify_empty c3 2). reflexivity. }
  assert (R4 : reachable g 3 c4) by exact (reachable_step g 3 2 c3 c4 R3 S34).
  assert (S45 : Monitor.step 2 c4 c5).
  { apply (step_close_notify_full c4 2). reflexivity. }
  assert (R5 : reachable g 3 c5) by exact (reachable_step g 3 2 c4 c5 R4 S45).
  assert (S56 : Monitor.step 0 c5 c6).
  { apply (step_critical c5 0 (Pop 0)). reflexivity. }
  destruct (close_wakes_all_waiters g 3 c3 R3) as (H3 & _ & _ & _).
  destruct (close_wakes_all_waiters g 3 c4 R4) as (_ & H4 & _ & _).
  destruct (close_wakes_all_waiters g 3 c5 R5) as (_ & _ & H5a & H5b).
  split; [|split; [|split]].
  - destruct (H3 2%nat c4 S34 eq_refl) as [Hn Hw].
    split; [exact Hn | apply (Hw 1%nat 0); reflexivity].
  - apply (H4 2%nat c5 S45). reflexivity.
  - apply (H5a 2%nat). reflexivity.
  - apply (H5b eq_refl 0%nat (Pop 0) c6 S56). reflexivity.
Defined.

End shutdown.

(** * Further properties *)

Lemma ring_bounds (s : state) :
  ring s ->
  0 <= in_ s < BUFFER_SIZE /\ 0 <= out s < BUFFER_SIZE /\
  0 <= count s <= BUFFER_SIZE /\
  (Z.to_nat (in_ s) < length (buffer s))%nat /\
  (Z.to_nat (out s) < length (buffer s))%nat.
Proof.
  intros [Hlen Hout Hcnt Hin].
  pose proof (ring_index_range (out s + count s)) as Hr. rewrite <- Hin in Hr.
  repeat split; lia.
Qed.

(** X1 (memory safety of the ring).  Every array access of [push] and
    [pop] is within the array, and [in], [out] and [count] stay within
    [0 .. BUFFER_SIZE], in every state reached from a freshly constructed
    buffer. *)
Theorem array_accesses_in_bounds (garbage : list Z) (ops : list op) :
  Z.of_nat (length garbage) = BUFFER_SIZE ->
  0 <= in_ (run ops (construct garbage)).2 < BUFFER_SIZE /\
  0 <= out (run ops (construct garbage)).2 < BUFFER_SIZE /\
  0 <= count (run ops (construct garbage)).2 <= BUFFER_SIZE /\
  (Z.to_nat (in_ (run ops (construct garbage)).2) <
   length (buffer (run ops (construct garbage)).2))%nat /\
  (Z.to_nat (out (run ops (construct garbage)).2) <
   length (buffer (run ops (construct garbage)).2))%nat.
Proof.
  intros Hlen. by apply ring_bounds, ring_run, ring_construct.
Qed.

Lemma array_accesses_in_bounds_witness :
  let s := (run [Push 1; Push 2; Push 3; Push 4; Push 5; Pop 0; Push 6]
              (construct [0; 0; 0; 0; 0])).2 in
  0 <= in_ s < BUFFER_SIZE /\ 0 <= out s < BUFFER_SIZE /\
  0 <= count s <= BUFFER_SIZE /\
  (Z.to_nat (in_ s) < length (buffer s))%nat /\
  (Z.to_nat (out s) < length (buffer s))%nat.
Proof.
  intros s.
  apply (array_accesses_in_bounds [0; 0; 0; 0; 0]
           [Push 1; Push 2; Push 3; Push 4; Push 5; Pop 0; Push 6]).
  reflexivity.
Defined.

(** X2 (a full buffer holds producers back).  After [BUFFER_SIZE] pushes
    into a fresh buffer, all of them accepted, [full()] is true, [size()] is
    [BUFFER_SIZE], [empty()] is false, and a further push is suspended
    instead of being accepted. *)
Theorem full_after_BUFFER_SIZE_pushes (garbage vs : list Z) (v : Z) :
  Z.of_nat (length vs) = BUFFER_SIZE ->
  (run (Push <$> vs) (construct garbage)).1 =
    (fun w => (Push w, RPush true)) <$> vs /\
  full (run (Push <$> vs) (construct garbage)).2 = true /\
  empty (run (Push <$> vs) (construct garbage)).2 = false /\
  size (run (Push <$> vs) (construct garbage)).2 = BUFFER_SIZE /\
  push v (run (Push <$> vs) (construct garbage)).2 = Blocked.
Proof.
  intros Hlen.
  destruct (pushes_accepted vs (construct garbage)) as (Hh & Hcl & Hc);
    [done | cbn; lia |].
  cbn [count construct] in Hc. rewrite Hlen, Z.add_0_l in Hc.
  split; [done|]. unfold full, empty, size. rewrite push_cases, Hcl, Hc.
  by vm_compute.
Qed.

Lemma full_after_BUFFER_SIZE_pushes_witness :
  let s := (run (Push <$> [1; 2; 3; 4; 5]) (construct [0; 0; 0; 0; 0])).2 in
  full s = true /\ empty s = false /\ size s = BUFFER_SIZE /\
  push 6 s = Blocked.
Proof.
  intros s.
  apply (full_after_BUFFER_SIZE_pushes [0; 0; 0; 0; 0] [1; 2; 3; 4; 5] 6).
  reflexivity.
Defined.


(** * Wake-ups are not lost *)

Section wakeups.
Import Monitor Wakeups.

Lemma tally_nonneg (f : pc -> bool) (ths : list pc) : 0 <= tally f ths.
Proof.
  induction ths as [|p ths IH]; cbn [tally]; [lia|]. destruct (f p); lia.
Qed.

Lemma tally_insert (f : pc -> bool) (ths : list pc) (t : nat) (p q : pc) :
  ths !! t = Some p ->
  tally f (<[t := q]> ths) =
    tally f ths - (if f p then 1 else 0) + (if f q then 1 else 0).
Proof.
  revert t. induction ths as [|p' ths IH]; intros [|t] Ht; try done.
  - injection Ht as ->. change (<[0%nat := q]> (p :: ths)) with (q :: ths).
    cbn [tally]. lia.
  - change (<[S t := q]> (p' :: ths)) with (p' :: <[t := q]> ths).
    cbn [tally]. rewrite (IH t Ht). lia.
Qed.

Lemma tally_zero (f : pc -> bool) (ths : list pc) :
  Forall (fun p => f p = false) ths <-> tally f ths = 0.
Proof.
  induction ths as [|p ths IH]; cbn [tally]; [done|].
  pose proof (tally_nonneg f ths). rewrite Forall_cons, IH.
  destruct (f p); split; try lia; intros []; (done || lia).
Qed.

Lemma tally_replicate_Idle (f : pc -> bool) (n : nat) :
  f Idle = false -> tally f (replicate n Idle) = 0.
Proof.
  intros Hf. induction n as [|n IH]; [done|].
  cbn [replicate tally]. rewrite Hf. lia.
Qed.

(** A broadcast empties the set of threads suspended on the condition
    variable and does not touch what the other threads are doing. *)
Lemma tally_notify_all_waits (cv : condvar) (ths : list pc) :
  tally (waits_on cv) (notify_all cv ths) = 0.
Proof. apply tally_zero, notify_all_broadcast. Qed.

Lemma tally_notify_all_other (f : pc -> bool) (cv : condvar) (ths : list pc) :
  (forall p, waits_on cv p = true -> f (wake p) = f p) ->
  tally f (notify_all cv ths) = tally f ths.
Proof.
  intros Hf. induction ths as [|p ths IH]; [done|].
  change (notify_all cv (p :: ths))
    with ((if waits_on cv p then wake p else p) :: notify_all cv ths).
  cbn [tally]. rewrite IH.
  destruct (waits_on cv p) eqn:Hp; [by rewrite (Hf p Hp) | done].
Qed.

Lemma lookup_tally_pos (f : pc -> bool) (ths : list pc) (t : nat) (p : pc) :
  ths !! t = Some p -> f p = true -> 0 < tally f ths.
Proof.
  revert t. induction ths as [|p' ths IH]; intros [|t] Ht Hp; try done;
    cbn [tally]; pose proof (tally_nonneg f ths).
  - injection Ht as ->. rewrite Hp. lia.
  - specialize (IH t Ht Hp). destruct (f p'); lia.
Qed.

Lemma tally_quiescent (f : pc -> bool) (ths : list pc) :
  (forall p, resting p = true -> f p = false) ->
  quiescent ths -> tally f ths = 0.
Proof.
  intros Hf Hq. apply tally_zero. eapply Forall_impl; [exact Hq|]. exact Hf.
Qed.

Lemma wake_inv_init (garbage : list Z) (n : nat) : wake_inv (init garbage n).
Proof.
  split; cbn [init threads shared]; rewrite ?tally_replicate_Idle by done;
    (lia || done).
Qed.

(** The invariant as plain arithmetic, on an open and on a closed buffer. *)
Lemma wake_inv_open (c : config) :
  closed (shared c) = false ->
  wake_inv c <->
  (0 < tally (waits_on not_empty) (threads c) ->
   count (shared c) <=
     tally notifying_push (threads c) + tally entering_pop (threads c)) /\
  (0 < tally (waits_on not_full) (threads c) ->
   BUFFER_SIZE - count (shared c) <=
     tally notifying_pop (threads c) + tally entering_push (threads c)) /\
  tally before_notify_full (threads c) <= 0.
Proof.
  intros Hcl. split.
  - intros [I1 I2 _ _ I5]. split; [done|]. split; [by apply I2|].
    destruct (Z.ltb_spec 0 (tally before_notify_full (threads c))); [|done].
    rewrite I5 in Hcl; done.
  - intros (I1 & I2 & I5). split; try done; try congruence. lia.
Qed.

Lemma wake_inv_closed (c : config) :
  closed (shared c) = true ->
  wake_inv c <->
  (0 < tally (waits_on not_empty) (threads c) ->
   count (shared c) <=
     tally notifying_push (threads c) + tally entering_pop (threads c)) /\
  (0 < tally (waits_on not_empty) (threads c) ->
   0 < tally before_notify_empty (threads c)) /\
  (0 < tally (waits_on not_full) (threads c) ->
   0 < tally before_notify_full (threads c)).
Proof.
  intros Hcl. split.
  - intros [I1 _ I3 I4 _]. split; [done|]. split; [by apply I3 | by apply I4].
  - intros (I1 & I3 & I4). split; try done; congruence.
Qed.

(** Rewrites every tally of a pool in which the thread found by [H] has
    moved on. *)
Ltac tally_moved H :=
  rewrite ?(tally_insert (waits_on not_empty) _ _ _ _ H),
          ?(tally_insert (waits_on not_full) _ _ _ _ H),
          ?(tally_insert notifying_push _ _ _ _ H),
          ?(tally_insert notifying_pop _ _ _ _ H),
          ?(tally_insert entering_push _ _ _ _ H),
          ?(tally_insert entering_pop _ _ _ _ H),
          ?(tally_insert before_notify_empty _ _ _ _ H),
          ?(tally_insert before_notify_full _ _ _ _ H);
  cbn [waits_on notifying_push notifying_pop entering_push entering_pop
       before_notify_empty before_notify_full wake].

Ltac tally_facts ths :=
  pose proof (tally_nonneg (waits_on not_empty) ths);
  pose proof (tally_nonneg (waits_on not_full) ths);
  pose proof (tally_nonneg notifying_push ths);
  pose proof (tally_nonneg notifying_pop ths);
  pose proof (tally_nonneg entering_push ths);
  pose proof (tally_nonneg entering_pop ths);
  pose proof (tally_nonneg before_notify_empty ths);
  pose proof (tally_nonneg before_notify_full ths).

Ltac wake_lia I :=
  let I1 := fresh "I" in
  let I2 := fresh "I" in
  let I3 := fresh "I" in
  destruct I as (I1 & I2 & I3); split; [|split]; intros; lia.

(** Splits on whether the buffer of [c] is closed and turns the invariant
    of [c] (hypothesis [I]) and of the configuration in the goal into
    arithmetic. *)
Ltac wake_cases c I :=
  let Hcl := fresh "Hcl" in
  destruct (closed (shared c)) eqn:Hcl;
  [ apply (wake_inv_closed c Hcl) in I; apply wake_inv_closed; [exact Hcl|]
  | apply (wake_inv_open c Hcl) in I; apply wake_inv_open; [exact Hcl|] ];
  cbn [set_threads shared threads].

Lemma wake_inv_call (c : config) (t : nat) (p : pc) (o : op) :
  wake_inv c -> threads c !! t = Some p -> can_call p = true ->
  wake_inv (set_threads c (<[t := Enter o]> (threads c))).
Proof.
  intros I Ht Hp. tally_facts (threads c).
  destruct p; try discriminate Hp; destruct o; wake_cases c I;
    tally_moved Ht; wake_lia I.
Qed.

Lemma wake_inv_spurious (c : config) (t : nat) (o : op) :
  wake_inv c -> threads c !! t = Some (Waiting o) ->
  wake_inv (set_threads c (<[t := Enter o]> (threads c))).
Proof.
  intros I Ht. tally_facts (threads c).
  destruct o; wake_cases c I; tally_moved Ht; wake_lia I.
Qed.

Ltac wake_closed c I Hcl :=
  apply (wake_inv_closed c Hcl) in I; apply wake_inv_closed; [exact Hcl|];
  cbn [set_threads shared threads count closed pushed_state popped_state].

Ltac wake_open c I Hcl :=
  apply (wake_inv_open c Hcl) in I; apply wake_inv_open; [exact Hcl|];
  cbn [set_threads shared threads count closed pushed_state popped_state].

Lemma wake_inv_critical
    (c : config) (t : nat) (o : op) (h : list (op * result)) :
  wake_inv c -> threads c !! t = Some (Enter o) ->
  wake_inv
    {| shared := (Buffer.step o (shared c)).2;
       threads := <[t := after o (Buffer.step o (shared c)).1]> (threads c);
       history := h |}.
Proof.
  intros I Ht. tally_facts (threads c). pose proof BUFFER_SIZE_pos.
  destruct o.
  - (* push *)
    pose proof (lookup_tally_pos entering_push _ _ _ Ht eq_refl).
    rewrite step_Push. destruct (closed (shared c)) eqn:Hcl.
    { cbn [fst snd after]. wake_closed c I Hcl. tally_moved Ht. wake_lia I. }
    destruct (Z.ltb_spec (count (shared c)) BUFFER_SIZE);
      cbn [fst snd after]; wake_open c I Hcl; tally_moved Ht; wake_lia I.
  - (* pop *)
    pose proof (lookup_tally_pos entering_pop _ _ _ Ht eq_refl).
    rewrite step_Pop. destruct (closed (shared c)) eqn:Hcl;
      rewrite ?orb_true_r, ?orb_false_r;
      destruct (Z.eqb_spec (count (shared c)) 0);
      try destruct (Z.ltb_spec 0 (count (shared c)));
      cbn [fst snd after];
      first [wake_closed c I Hcl | wake_open c I Hcl];
      tally_moved Ht; wake_lia I.
  - (* close *)
    cbn [Buffer.step fst snd after].
    apply wake_inv_closed; [reflexivity|]. cbn [shared threads count close].
    destruct (closed (shared c)) eqn:Hcl;
      [apply (wake_inv_closed c Hcl) in I | apply (wake_inv_open c Hcl) in I];
      tally_moved Ht; wake_lia I.
  - cbn [Buffer.step fst snd after]. destruct (closed (shared c)) eqn:Hcl;
      [wake_closed c I Hcl | wake_open c I Hcl]; tally_moved Ht; wake_lia I.
  - cbn [Buffer.step fst snd after]. destruct (closed (shared c)) eqn:Hcl;
      [wake_closed c I Hcl | wake_open c I Hcl]; tally_moved Ht; wake_lia I.
  - cbn [Buffer.step fst snd after]. destruct (closed (shared c)) eqn:Hcl;
      [wake_closed c I Hcl | wake_open c I Hcl]; tally_moved Ht; wake_lia I.
Qed.

Lemma wake_inv_notify_one
    (c : config) (t : nat) (p q : pc) (cv : condvar) (ths' : list pc) :
  wake_inv c -> threads c !! t = Some p ->
  (p = PushNotify /\ q = Done (RPush true) /\ cv = not_empty \/
   exists v, p = PopNotify v /\ q = Done (RPop true v) /\ cv = not_full) ->
  notify_one cv (<[t := q]> (threads c)) ths' ->
  wake_inv (set_threads c ths').
Proof.
  intros I Ht Hpq Hn. tally_facts (threads c).
  destruct Hn as [Hnone | i w Hi Hw].
  - apply tally_zero in Hnone.
    destruct Hpq as [(-> & -> & ->) | (v & -> & -> & ->)];
      revert Hnone; tally_moved Ht; intros Hnone;
      (destruct (closed (shared c)) eqn:Hcl;
       [wake_closed c I Hcl | wake_open c I Hcl]); tally_moved Ht; wake_lia I.
  - destruct Hpq as [(-> & -> & ->) | (v & -> & -> & ->)];
      destruct w as [| |[]| | | | |]; try discriminate Hw;
      (destruct (closed (shared c)) eqn:Hcl;
       [wake_closed c I Hcl | wake_open c I Hcl]);
      tally_moved Hi; tally_moved Ht; wake_lia I.
Qed.

(** Rewrites the tallies that a broadcast leaves alone. *)
Ltac tally_unwoken :=
  let side := (intros [| |[]| | | | |]; done) in
  try rewrite (tally_notify_all_other (waits_on not_empty)) by side;
  try rewrite (tally_notify_all_other (waits_on not_full)) by side;
  try rewrite (tally_notify_all_other notifying_push) by side;
  try rewrite (tally_notify_all_other notifying_pop) by side;
  try rewrite (tally_notify_all_other entering_push) by side;
  try rewrite (tally_notify_all_other entering_pop) by side;
  try rewrite (tally_notify_all_other before_notify_empty) by side;
  try rewrite (tally_notify_all_other before_notify_full) by side.

Lemma wake_inv_notify_all
    (c : config) (t : nat) (p q : pc) (cv : condvar) :
  wake_inv c -> threads c !! t = Some p ->
  (p = CloseNotifyEmpty /\ q = CloseNotifyFull /\ cv = not_empty \/
   p = CloseNotifyFull /\ q = Done RClose /\ cv = not_full) ->
  wake_inv (set_threads c (notify_all cv (<[t := q]> (threads c)))).
Proof.
  intros I Ht Hpq. tally_facts (threads c).
  assert (Hcl : closed (shared c) = true).
  { apply (wake_closing c I). eapply lookup_tally_pos; [exact Ht|].
    by destruct Hpq as [(-> & _) | (-> & _)]. }
  wake_closed c I Hcl.
  destruct Hpq as [(-> & -> & ->) | (-> & -> & ->)];
    rewrite tally_notify_all_waits;
    tally_unwoken; tally_moved Ht; wake_lia I.
Qed.

Lemma wake_inv_step (t : nat) (c c' : config) :
  wake_inv c -> Monitor.step t c c' -> wake_inv c'.
Proof.
  intros I Hstep.
  destruct Hstep as [c t p o Ht Hp | c t o Ht | c t o Ht | c t ths' Ht Hn
                    | c t v ths' Ht Hn | c t Ht | c t Ht].
  - by apply (wake_inv_call c t p o).
  - by apply wake_inv_critical.
  - by apply wake_inv_spurious.
  - apply (wake_inv_notify_one c t PushNotify (Done (RPush true)) not_empty);
      auto.
  - apply (wake_inv_notify_one c t (PopNotify v) (Done (RPop true v)) not_full);
      eauto 10.
  - apply (wake_inv_notify_all c t CloseNotifyEmpty CloseNotifyFull not_empty);
      auto.
  - apply (wake_inv_notify_all c t CloseNotifyFull (Done RClose) not_full);
      auto.
Qed.

Lemma wake_inv_reachable (garbage : list Z) (n : nat) (c : config) :
  reachable garbage n c -> wake_inv c.
Proof.
  induction 1 as [|t c c' _ IH Hstep]; [apply wake_inv_init|].
  by apply (wake_inv_step t c c').
Qed.

Lemma count_bound_reachable (garbage : list Z) (n : nat) (c : config) :
  reachable garbage n c -> 0 <= count (shared c) <= BUFFER_SIZE.
Proof.
  intros Hreach.
  replace (shared c) with (run (history c).*1 (construct garbage)).2
    by (by rewrite (history_is_run garbage n c Hreach)).
  apply count_bound_run. cbn. pose proof BUFFER_SIZE_pos. lia.
Qed.

(** X4 (no lost wake-up).  In every reachable configuration: while some
    consumer is suspended in [pop], the number of held values is at most the
    number of producers that still owe their [not_empty.notify_one()] plus
    the number of consumers that are awake and about to test their
    predicate; while the buffer is open and some producer is suspended in
    [push], the number of free cells is at most the number of consumers that
    still owe their [not_full.notify_one()] plus the number of awake
    producers.  So a value, or a free cell, never sits unnoticed next to a
    sleeping thread. *)
Theorem no_lost_wakeup (garbage : list Z) (n : nat) (c : config) :
  reachable garbage n c ->
  (0 < tally (waits_on not_empty) (threads c) ->
   count (shared c) <=
     tally notifying_push (threads c) + tally entering_pop (threads c)) /\
  (closed (shared c) = false ->
   0 < tally (waits_on not_full) (threads c) ->
   BUFFER_SIZE - count (shared c) <=
     tally notifying_pop (threads c) + tally entering_push (threads c)).
Proof.
  intros Hreach. destruct (wake_inv_reachable _ _ _ Hreach) as [I1 I2 _ _ _].
  by split.
Qed.

Lemma no_lost_wakeup_witness :
  let g := [0; 0; 0; 0; 0] in
  let c := {| shared := pushed_state 7 (construct g);
              threads := [Waiting (Pop 0); PushNotify];
              history := [(Pop 0, RBlocked); (Push 7, RPush true)] |} in
  0 < tally (waits_on not_empty) (threads c) /\
  count (shared c) <=
    tally notifying_push (threads c) + tally entering_pop (threads c).
Proof.
  intros g c.
  pose (c0 := init g 2).
  pose (c1 := {| shared := construct g; threads := [Waiting (Pop 0); Idle];
                 history := [(Pop 0, RBlocked)] |}).
  assert (R1 : reachable g 2 c1).
  { apply (reachable_step g 2 0 (set_threads c0 [Enter (Pop 0); Idle])).
    - apply (reachable_step g 2 0 c0); [apply reachable_init|].
      apply (step_call c0 0 Idle (Pop 0)); reflexivity.
    - apply (step_critical (set_threads c0 [Enter (Pop 0); Idle]) 0 (Pop 0)).
      reflexivity. }
  assert (R2 : reachable g 2 c).
  { apply (reachable_step g 2 1
             (set_threads c1 [Waiting (Pop 0); Enter (Push 7)])).
    - apply (reachable_step g 2 1 c1); [exact R1|].
      apply (step_call c1 1 Idle (Push 7)); reflexivity.
    - apply (step_critical
               (set_threads c1 [Waiting (Pop 0); Enter (Push 7)]) 1 (Push 7)).
      reflexivity. }
  split; [reflexivity|].
  apply (no_lost_wakeup g 2 c R2). reflexivity.
Defined.

(** X5 (threads stay blocked only for a reason).  In a reachable
    configuration in which no thread is running (each is outside the
    buffer's member functions or suspended in a [wait]): a thread suspended
    in [pop] means the buffer is open and empty, a thread suspended in
    [push] means the buffer is open and full.  So never are a producer and a
    consumer both left blocked, and once the buffer is closed nobody is
    left blocked. *)
Theorem blocked_only_with_cause (garbage : list Z) (n : nat) (c : config) :
  reachable garbage n c -> quiescent (threads c) ->
  (forall t x,
     threads c !! t = Some (Waiting (Pop x)) ->
     closed (shared c) = false /\ count (shared c) = 0) /\
  (forall t v,
     threads c !! t = Some (Waiting (Push v)) ->
     closed (shared c) = false /\ count (shared c) = BUFFER_SIZE) /\
  (closed (shared c) = true ->
   nobody_waits not_empty (threads c) /\ nobody_waits not_full (threads c)).
Proof.
  intros Hreach Hq.
  destruct (wake_inv_reachable _ _ _ Hreach) as [I1 I2 I3 I4 _].
  pose proof (count_bound_reachable _ _ _ Hreach) as Hc.
  rewrite (tally_quiescent notifying_push) in I1 by (done || by intros []).
  rewrite (tally_quiescent entering_pop) in I1 by (done || by intros []).
  rewrite (tally_quiescent notifying_pop) in I2 by (done || by intros []).
  rewrite (tally_quiescent entering_push) in I2 by (done || by intros []).
  rewrite (tally_quiescent before_notify_empty) in I3 by (done || by intros []).
  rewrite (tally_quiescent before_notify_full) in I4 by (done || by intros []).
  split; [|split].
  - intros t x Ht.
    pose proof (lookup_tally_pos (waits_on not_empty) _ _ _ Ht eq_refl) as Hw.
    destruct (closed (shared c)) eqn:Hcl.
    + specialize (I3 eq_refl Hw). lia.
    + specialize (I1 Hw). split; [done | lia].
  - intros t v Ht.
    pose proof (lookup_tally_pos (waits_on not_full) _ _ _ Ht eq_refl) as Hw.
    destruct (closed (shared c)) eqn:Hcl.
    + specialize (I4 eq_refl Hw). lia.
    + specialize (I2 eq_refl Hw). split; [done | lia].
  - intros Hcl. unfold nobody_waits. rewrite !tally_zero.
    pose proof (tally_nonneg (waits_on not_empty) (threads c)).
    pose proof (tally_nonneg (waits_on not_full) (threads c)).
    specialize (I3 Hcl). specialize (I4 Hcl). lia.
Qed.

Lemma blocked_only_with_cause_witness :
  let g := [0; 0; 0; 0; 0] in
  let c := {| shared := construct g;
              threads := [Waiting (Pop 0); Done (RBool true)];
              history := [(Pop 0, RBlocked); (Empty, RBool true)] |} in
  quiescent (threads c) /\
  closed (shared c) = false /\ count (shared c) = 0.
Proof.
  intros g c.
  pose (c0 := init g 2).
  pose (c1 := {| shared := construct g; threads := [Waiting (Pop 0); Idle];
                 history := [(Pop 0, RBlocked)] |}).
  assert (R1 : reachable g 2 c1).
  { apply (reachable_step g 2 0 (set_threads c0 [Enter (Pop 0); Idle])).
    - apply (reachable_step g 2 0 c0); [apply reachable_init|].
      apply (step_call c0 0 Idle (Pop 0)); reflexivity.
    - apply (step_critical (set_threads c0 [Enter (Pop 0); Idle]) 0 (Pop 0)).
      reflexivity. }
  assert (R2 : reachable g 2 c).
  { apply (reachable_step g 2 1
             (set_threads c1 [Waiting (Pop 0); Enter Empty])).
    - apply (reachable_step g 2 1 c1); [exact R1|].
      apply (step_call c1 1 Idle Empty); reflexivity.
    - apply (step_critical
               (set_threads c1 [Waiting (Pop 0); Enter Empty]) 1 Empty).
      reflexivity. }
  assert (Q : quiescent (threads c)).
  { repeat constructor. }
  split; [exact Q|].
  destruct (blocked_only_with_cause g 2 c R2 Q) as (H1 & _ & _).
  apply (H1 0%nat 0). reflexivity.
Defined.

End wakeups.

(** * Snapshots, suspension and the terminal state *)

(** X6 (what the snapshots say).  In every state reached from a freshly
    constructed buffer, [size()] is the number of held values, [empty()] is
    true exactly when no value is held, [full()] is true exactly when
    [BUFFER_SIZE] values are held, and the two are never true together. *)
Theorem snapshots_describe_contents (garbage : list Z) (ops : list op) :
  size (run ops (construct garbage)).2 =
    Z.of_nat (length (contents (run ops (construct garbage)).2)) /\
  (empty (run ops (construct garbage)).2 = true <->
   contents (run ops (construct garbage)).2 = []) /\
  (full (run ops (construct garbage)).2 = true <->
   Z.of_nat (length (contents (run ops (construct garbage)).2)) = BUFFER_SIZE) /\
  empty (run ops (construct garbage)).2 &&
    full (run ops (construct garbage)).2 = false.
Proof.
  pose proof BUFFER_SIZE_pos as HB.
  assert (Hc : 0 <= count (run ops (construct garbage)).2 <= BUFFER_SIZE).
  { apply count_bound_run. cbn. lia. }
  set (s := (run ops (construct garbage)).2) in *.
  unfold size, empty, full. rewrite length_contents, Z2Nat.id by lia.
  split; [|split; [|split]].
  - apply Z.mod_small. assert (BUFFER_SIZE < 2 ^ 64) by reflexivity. lia.
  - rewrite Z.eqb_eq. split; [apply contents_empty|].
    intros Hnil. apply (f_equal length) in Hnil.
    rewrite length_contents in Hnil. cbn in Hnil. lia.
  - apply Z.eqb_eq.
  - destruct (Z.eqb_spec (count s) 0), (Z.eqb_spec (count s) BUFFER_SIZE);
      (done || lia).
Qed.

Lemma drained_terminal (ops : list op) (s : state) :
  drained (run ops s).1 = true ->
  closed (run ops s).2 = true /\ count (run ops s).2 = 0.
Proof.
  revert s. induction ops as [|o ops IH]; intros s; [done|].
  rewrite run_cons. cbn [fst snd]. rewrite drained_cons.
  intros [Hd|Hd]%orb_prop; [|by apply IH].
  destruct (step_end_of_stream o s Hd) as [Hcl Hc].
  destruct (step_terminal o s Hcl Hc) as (-> & _).
  by destruct (run_terminal ops s Hcl Hc) as (-> & _).
Qed.

(** X7 (closed and drained is terminal).  Once some pop has reported
    end-of-stream, the buffer is closed and empty and stays so whatever is
    called afterwards: every push is rejected, every pop reports
    end-of-stream, no call changes any field, and [size()] is 0. *)
Theorem end_of_stream_is_terminal
    (garbage : list Z) (ops more : list op) (v x : Z) :
  drained (run ops (construct garbage)).1 = true ->
  closed (run ops (construct garbage)).2 = true /\
  size (run ops (construct garbage)).2 = 0 /\
  empty (run ops (construct garbage)).2 = true /\
  push v (run ops (construct garbage)).2 =
    Returned false (run ops (construct garbage)).2 /\
  pop x (run ops (construct garbage)).2 =
    Returned (false, x) (run ops (construct garbage)).2 /\
  (run more (run ops (construct garbage)).2).2 =
    (run ops (construct garbage)).2 /\
  pushed (run more (run ops (construct garbage)).2).1 = [] /\
  popped (run more (run ops (construct garbage)).2).1 = [].
Proof.
  intros Hd. destruct (drained_terminal _ _ Hd) as [Hcl Hc].
  set (s := (run ops (construct garbage)).2) in *.
  destruct (run_terminal more s Hcl Hc) as (H1 & H2 & H3).
  unfold size, empty. rewrite push_cases, pop_cases, Hcl, Hc. done.
Qed.

Lemma end_of_stream_is_terminal_witness :
  let s := (run [Push 1; Close; Pop 0; Pop 0] (construct [0; 0; 0; 0; 0])).2 in
  closed s = true /\ size s = 0 /\ empty s = true /\
  push 9 s = Returned false s /\ pop 8 s = Returned (false, 8) s /\
  (run [Push 2; Pop 0; Close; Full] s).2 = s /\
  pushed (run [Push 2; Pop 0; Close; Full] s).1 = [] /\
  popped (run [Push 2; Pop 0; Close; Full] s).1 = [].
Proof.
  intros s.
  apply (end_of_stream_is_terminal [0; 0; 0; 0; 0]
           [Push 1; Close; Pop 0; Pop 0] [Push 2; Pop 0; Close; Full] 9 8).
  reflexivity.
Defined.

(** X8 (when a call suspends).  In every state reached from a freshly
    constructed buffer, [push] suspends its caller exactly when the buffer
    is open and holds [BUFFER_SIZE] values, and [pop] exactly when it is
    open and holds none; so no state suspends both a producer and a
    consumer, and a closed buffer suspends nobody. *)
Theorem suspension_points (garbage : list Z) (ops : list op) (v x : Z) :
  (push v (run ops (construct garbage)).2 = Blocked <->
   closed (run ops (construct garbage)).2 = false /\
   count (run ops (construct garbage)).2 = BUFFER_SIZE) /\
  (pop x (run ops (construct garbage)).2 = Blocked <->
   closed (run ops (construct garbage)).2 = false /\
   count (run ops (construct garbage)).2 = 0) /\
  (push v (run ops (construct garbage)).2 <> Blocked \/
   pop x (run ops (construct garbage)).2 <> Blocked).
Proof.
  pose proof BUFFER_SIZE_pos as HB.
  assert (Hc : 0 <= count (run ops (construct garbage)).2 <= BUFFER_SIZE).
  { apply count_bound_run. cbn. lia. }
  set (s := (run ops (construct garbage)).2) in *.
  rewrite push_cases, pop_cases.
  destruct (closed s).
  { rewrite orb_true_r. destruct (count s =? 0);
      (split; [|split]); (by left) || (split; [done | by intros []]). }
  destruct (Z.ltb_spec (count s) BUFFER_SIZE), (Z.eqb_spec (count s) 0);
    try lia; rewrite ?orb_false_r.
  - intuition (done || lia).
  - destruct (Z.ltb_spec 0 (count s)); [|lia]. intuition (done || lia).
  - destruct (Z.ltb_spec 0 (count s)); [|lia]. intuition (done || lia).
Qed.

(** * The deque *)

Section deque_facts.
Import Deque.
Context {T : Type}.
Implicit Types (data : list T) (ops : list (op T)) (h : list (op T * result T)).

Lemma deque_run_cons (o : op T) ops data :
  run (o :: ops) data =
    ((o, (step o data).1) :: (run ops (step o data).2).1,
     (run ops (step o data).2).2).
Proof. cbn [run]. by destruct (step o data), (run ops _). Qed.

Lemma deque_pushed_cons (e : op T * result T) h :
  pushed (e :: h) = pushed [e] ++ pushed h.
Proof. by destruct e as [[] ?]. Qed.

Lemma deque_popped_cons (e : op T * result T) h :
  popped (e :: h) = popped [e] ++ popped h.
Proof. by destruct e as [? [|[]| |]]. Qed.

Lemma deque_step_PopFront (x : T) data :
  step (PopFront x) data =
    match data with
    | [] => (RPop false x, [])
    | y :: data' => (RPop true y, data')
    end.
Proof. by destruct data. Qed.

Lemma deque_step_PopBack (x : T) data :
  step (PopBack x) data =
    match data with
    | [] => (RPop false x, [])
    | _ :: _ => (RPop true (List.last data x), removelast data)
    end.
Proof. by destruct data. Qed.

(** X9 (deque: pops at the ends).  A pop fails exactly on the empty deque,
    and then neither the caller's variable nor the deque changes.  A pop
    that follows a push at the same end returns the pushed value and
    restores the deque; on a deque of one element both pops return that
    element. *)
Theorem deque_pop_edges (x v : T) data :
  ((pop_front x data).1.1 = false <-> data = []) /\
  ((pop_back x data).1.1 = false <-> data = []) /\
  pop_front x [] = (false, x, []) /\
  pop_back x [] = (false, x, []) /\
  pop_front x (push_front v data) = (true, v, data) /\
  pop_back x (push_back v data) = (true, v, data) /\
  pop_front x [v] = (true, v, []) /\
  pop_back x [v] = (true, v, []).
Proof.
  split_and!; try done.
  - by destruct data.
  - by destruct data.
  - unfold pop_back, push_back. destruct data as [|y data]; [done|].
    cbn [empty app]. change (y :: data ++ [v]) with ((y :: data) ++ [v]).
    by rewrite last_last, removelast_last.
Qed.

Lemma deque_conserve_step (o : op T) data :
  data ++ pushed [(o, (step o data).1)] ≡ₚ
  popped [(o, (step o data).1)] ++ (step o data).2.
Proof.
  destruct o as [v|v|x|x| |].
  - cbn. symmetry. apply Permutation_cons_append.
  - done.
  - rewrite deque_step_PopFront. destruct data; cbn; by rewrite ?app_nil_r.
  - rewrite deque_step_PopBack. destruct data as [|y data]; [done|].
    cbn [fst snd pushed popped app]. rewrite app_nil_r.
    rewrite (app_removelast_last x (l := y :: data)) at 1 by done.
    symmetry. apply Permutation_cons_append.
  - cbn. by rewrite app_nil_r.
  - cbn. by rewrite app_nil_r.
Qed.

(** X10 (deque: nothing is lost or duplicated).  After any sequence of
    calls, the values popped together with the values still held are, up to
    order, the values held at the start together with the values pushed;
    and [size()] has grown by the number of pushes minus the number of
    successful pops. *)
Theorem deque_conservation ops data :
  data ++ pushed (run ops data).1 ≡ₚ
    popped (run ops data).1 ++ (run ops data).2 /\
  size (run ops data).2 =
    size data + Z.of_nat (length (pushed (run ops data).1)) -
    Z.of_nat (length (popped (run ops data).1)).
Proof.
  assert (Hperm : data ++ pushed (run ops data).1 ≡ₚ
                  popped (run ops data).1 ++ (run ops data).2).
  { revert data. induction ops as [|o ops IH]; intros data.
    - cbn. by rewrite app_nil_r.
    - rewrite deque_run_cons. cbn [fst snd].
      rewrite deque_pushed_cons, deque_popped_cons, app_assoc.
      rewrite (deque_conserve_step o data), <- !app_assoc.
      by rewrite (IH (step o data).2). }
  split; [done|]. apply Permutation_length in Hperm.
  rewrite !length_app in Hperm. unfold size. lia.
Qed.

(** X11 (deque used as a queue).  A sequence of calls that pushes only at
    the back and pops only at the front delivers the values in the order in
    which they were pushed: the values popped followed by the values still
    held are the values held at the start followed by the values pushed. *)
Theorem deque_fifo ops data :
  forallb queue_op ops = true ->
  data ++ pushed (run ops data).1 = popped (run ops data).1 ++ (run ops data).2.
Proof.
  revert data. induction ops as [|o ops IH]; intros data Hq.
  - cbn. by rewrite app_nil_r.
  - cbn [forallb] in Hq. apply andb_prop in Hq as [Ho Hq].
    rewrite deque_run_cons. cbn [fst snd].
    rewrite deque_pushed_cons, deque_popped_cons, app_assoc.
    assert (Hs : data ++ pushed [(o, (step o data).1)] =
                 popped [(o, (step o data).1)] ++ (step o data).2).
    { destruct o as [v|v|x|x| |]; try discriminate Ho.
      - done.
      - rewrite deque_step_PopFront. destruct data; cbn; by rewrite ?app_nil_r.
      - cbn. by rewrite app_nil_r.
      - cbn. by rewrite app_nil_r. }
    by rewrite Hs, <- !app_assoc, (IH _ Hq).
Qed.

Lemma deque_step_mirror (o : op T) data :
  step (mirror o) (rev data) = ((step o data).1, rev (step o data).2).
Proof.
  destruct o as [v|v|x|x| |]; cbn [mirror].
  - done.
  - cbn. unfold push_front, push_back. by rewrite rev_unit.
  - rewrite deque_step_PopBack, deque_step_PopFront.
    destruct data as [|y data]; [done|]. cbn [rev fst snd].
    destruct (rev data ++ [y]) eqn:E; [by destruct (rev data)|].
    by rewrite <- E, last_last, removelast_last.
  - rewrite deque_step_PopBack, deque_step_PopFront.
    destruct data as [|y data]; [done|]. cbn [fst snd].
    rewrite (app_removelast_last x (l := y :: data)) at 1 by done.
    by rewrite rev_unit.
  - cbn. unfold empty. destruct data as [|y data]; [done|]. cbn [rev].
    by destruct (rev data).
  - cbn. unfold size. by rewrite length_rev.
Qed.

(** X12 (deque: the two ends are alike).  Making every call at the other
    end of the reversed deque returns the same results, call by call, and
    leaves the reversed deque. *)
Theorem deque_mirror ops data :
  (run (mirror <$> ops) (rev data)).1.*2 = (run ops data).1.*2 /\
  (run (mirror <$> ops) (rev data)).2 = rev (run ops data).2.
Proof.
  revert data. induction ops as [|o ops IH]; intros data; [done|].
  cbn [fmap list_fmap]. rewrite !deque_run_cons. cbn [fst snd fmap list_fmap].
  rewrite deque_step_mirror. cbn [fst snd].
  destruct (IH (step o data).2) as [IH1 IH2]. split; [|done].
  f_equal. exact IH1.
Qed.

End deque_facts.

Section deque_witnesses.
Import Deque.

Lemma deque_fifo_witness :
  popped (run [PushBack 1; PushBack 2; PopFront 0; PushBack 3; PopFront 0;
               Size; PopFront 0; PopFront 9] (@construct Z)).1 = [1; 2; 3] /\
  [] ++ pushed (run [PushBack 1; PushBack 2; PopFront 0] (@construct Z)).1 =
    popped (run [PushBack 1; PushBack 2; PopFront 0] (@construct Z)).1 ++
    (run [PushBack 1; PushBack 2; PopFront 0] (@construct Z)).2.
Proof.
  split; [reflexivity|].
  apply (deque_fifo [PushBack 1; PushBack 2; PopFront 0] (@construct Z)).
  reflexivity.
Defined.

End deque_witnesses.

(** * The priority queue *)

Section priority_queue_facts.
Import PriorityQueue.

Lemma foldr_max_ge (x : Z) (q : list Z) :
  x <= foldr Z.max x q /\ Forall (fun y => y <= foldr Z.max x q) q.
Proof.
  induction q as [|y q [IH1 IH2]]; cbn [foldr]; [by split; [lia|]|].
  split; [lia|]. constructor; [lia|].
  eapply Forall_impl; [exact IH2|]. intros z Hz. cbn in Hz. lia.
Qed.

Lemma foldr_max_in (x : Z) (q : list Z) : foldr Z.max x q ∈ x :: q.
Proof.
  induction q as [|y q IH]; cbn [foldr]; [apply list_elem_of_here|].
  destruct (Z.max_spec y (foldr Z.max x q)) as [[_ ->] | [_ ->]].
  - apply elem_of_cons in IH as [->|IH]; [apply list_elem_of_here|].
    by do 2 apply list_elem_of_further.
  - apply list_elem_of_further, list_elem_of_here.
Qed.

Lemma pq_top_greatest (q : list Z) :
  q <> [] -> pq_top q ∈ q /\ Forall (fun y => y <= pq_top q) q.
Proof.
  destruct q as [|x q]; [done|]. intros _. cbn [pq_top].
  destruct (foldr_max_ge x q). split; [apply foldr_max_in | by constructor].
Qed.

Lemma remove_one_perm (x : Z) (q : list Z) :
  x ∈ q -> q ≡ₚ x :: remove_one x q.
Proof.
  induction q as [|y q IH]; [set_solver|]. intros Hx. cbn [remove_one].
  destruct (Z.eqb_spec y x) as [->|Hne]; [done|].
  rewrite <- (Permutation_swap x y). f_equiv. apply IH.
  by apply elem_of_cons in Hx as [->|Hx].
Qed.

Lemma pq_step_Pop (x : Z) (q : list Z) :
  step (Pop x) q =
    match q with
    | [] => (RPop false x, [])
    | _ :: _ => (RPop true (pq_top q), pq_pop q)
    end.
Proof. by destruct q. Qed.

(** X13 (priority queue: pop takes the greatest).  On the empty queue [pop]
    returns [false] and changes neither the caller's variable nor the
    queue.  Otherwise it returns [true] with a held value that no held value
    exceeds, and removes exactly one copy of it. *)
Theorem pq_pop_greatest (x : Z) (q : list Z) :
  pop x [] = (false, x, []) /\
  (q <> [] ->
   (pop x q).1.1 = true /\
   (pop x q).1.2 ∈ q /\
   Forall (fun y => y <= (pop x q).1.2) q /\
   q ≡ₚ (pop x q).1.2 :: (pop x q).2).
Proof.
  split; [done|]. intros Hq. destruct (pq_top_greatest q Hq) as [Hin Hge].
  unfold pop. destruct q as [|y q]; [done|]. cbn [pq_empty fst snd].
  split_and!; try done. by apply remove_one_perm.
Qed.

Lemma pq_pop_greatest_witness :
  pop 0 [3; 9; 4; 9; 1] = (true, 9, [3; 4; 9; 1]) /\
  Forall (fun y => y <= 9) [3; 9; 4; 9; 1] /\
  [3; 9; 4; 9; 1] ≡ₚ 9 :: [3; 4; 9; 1].
Proof.
  destruct (pq_pop_greatest 0 [3; 9; 4; 9; 1]) as [_ H].
  destruct H as (_ & _ & H3 & H4); [done|].
  split; [reflexivity|]. split; [exact H3 | exact H4].
Defined.

Lemma pq_run_cons (o : op) (ops : list op) (q : list Z) :
  run (o :: ops) q =
    ((o, (step o q).1) :: (run ops (step o q).2).1, (run ops (step o q).2).2).
Proof. cbn [run]. by destruct (step o q), (run ops _). Qed.

Lemma pq_pushed_cons (e : op * result) (h : list (op * result)) :
  pushed (e :: h) = pushed [e] ++ pushed h.
Proof. by destruct e as [[] ?]. Qed.

Lemma pq_popped_cons (e : op * result) (h : list (op * result)) :
  popped (e :: h) = popped [e] ++ popped h.
Proof. by destruct e as [? [|[]| |]]. Qed.

Lemma pq_conserve_step (o : op) (q : list Z) :
  q ++ pushed [(o, (step o q).1)] ≡ₚ
  popped [(o, (step o q).1)] ++ (step o q).2.
Proof.
  destruct o as [v|x| |].
  - cbn. symmetry. apply Permutation_cons_append.
  - rewrite pq_step_Pop. destruct q as [|y q]; [done|].
    cbn [fst snd pushed popped app]. rewrite app_nil_r.
    apply remove_one_perm. by apply pq_top_greatest.
  - cbn. by rewrite app_nil_r.
  - cbn. by rewrite app_nil_r.
Qed.

Lemma pq_conserve_run (ops : list op) (q : list Z) :
  q ++ pushed (run ops q).1 ≡ₚ popped (run ops q).1 ++ (run ops q).2.
Proof.
  revert q. induction ops as [|o ops IH]; intros q.
  - cbn. by rewrite app_nil_r.
  - rewrite pq_run_cons. cbn [fst snd].
    rewrite pq_pushed_cons, pq_popped_cons, app_assoc.
    rewrite (pq_conserve_step o q), <- !app_assoc.
    by rewrite (IH (step o q).2).
Qed.

(** X14 (priority queue: nothing is lost or duplicated).  After any
    sequence of calls, the values popped together with the values still held
    are, up to order, the values held at the start together with the values
    pushed; [size()] has grown by the number of pushes minus the number of
    successful pops. *)
Theorem pq_conservation (ops : list op) (q : list Z) :
  q ++ pushed (run ops q).1 ≡ₚ popped (run ops q).1 ++ (run ops q).2 /\
  size (run ops q).2 =
    size q + Z.of_nat (length (pushed (run ops q).1)) -
    Z.of_nat (length (popped (run ops q).1)).
Proof.
  pose proof (pq_conserve_run ops q) as Hperm.
  split; [done|]. apply Permutation_length in Hperm.
  rewrite !length_app in Hperm. unfold size, pq_size. lia.
Qed.

(** Popping [n] times from a queue that holds at least [n] values. *)
Lemma pq_drain (xs : list Z) (q : list Z) :
  (length xs <= length q)%nat ->
  length (popped (run (Pop <$> xs) q).1) = length xs /\
  Forall (fun v => Forall (fun y => y <= v) (run (Pop <$> xs) q).2)
    (popped (run (Pop <$> xs) q).1) /\
  Sorted Z.ge (popped (run (Pop <$> xs) q).1) /\
  Forall (fun v => v ∈ q) (popped (run (Pop <$> xs) q).1) /\
  Forall (fun y => y ∈ q) (run (Pop <$> xs) q).2.
Proof.
  revert q. induction xs as [|x xs IH]; intros q Hlen.
  - cbn. split_and!; try done. apply Forall_forall. auto.
  - cbn [length] in Hlen. destruct q as [|y q]; [cbn in Hlen; lia|].
    cbn [fmap list_fmap]. rewrite pq_run_cons, pq_step_Pop. cbn [fst snd popped].
    set (m := pq_top (y :: q)). set (q' := pq_pop (y :: q)).
    destruct (pq_top_greatest (y :: q)) as [Hin Hge]; [done|]. fold m in Hin, Hge.
    assert (Hperm : y :: q ≡ₚ m :: q') by (by apply remove_one_perm).
    assert (Hlen' : (length xs <= length q')%nat).
    { apply Permutation_length in Hperm. cbn [length] in Hperm, Hlen. lia. }
    destruct (IH q' Hlen') as (I1 & I2 & I3 & I4 & I5).
    assert (Hsub : forall z, z ∈ q' -> z ∈ y :: q).
    { intros z Hz. rewrite Hperm. by apply list_elem_of_further. }
    assert (Hge' : Forall (fun z => z <= m) q').
    { apply Forall_forall. intros z Hz.
      rewrite Forall_forall in Hge. by apply Hge, Hsub. }
    split_and!.
    + cbn [length]. by rewrite I1.
    + constructor; [|done]. apply Forall_forall. intros z Hz.
      rewrite Forall_forall in I5, Hge'. by apply Hge', I5.
    + constructor; [done|].
      destruct (popped (run (Pop <$> xs) q').1) as [|w ws] eqn:E;
        constructor.
      apply Forall_cons in I4 as [Hw _].
      rewrite Forall_forall in Hge'. by apply Z.le_ge, Hge'.
    + constructor; [done|]. eapply Forall_impl; [exact I4|]. exact Hsub.
    + eapply Forall_impl; [exact I5|]. exact Hsub.
Qed.

(** X15 (priority queue: draining sorts).  Popping as many times as the
    queue holds values returns all its values, each once, in non-increasing
    order, and leaves it empty; one more pop returns [false]. *)
Theorem pq_drain_sorted (xs : list Z) (x : Z) (q : list Z) :
  length xs = length q ->
  popped (run (Pop <$> xs) q).1 ≡ₚ q /\
  Sorted Z.ge (popped (run (Pop <$> xs) q).1) /\
  (run (Pop <$> xs) q).2 = [] /\
  pop x (run (Pop <$> xs) q).2 = (false, x, []).
Proof.
  intros Hlen.
  destruct (pq_drain xs q) as (H1 & _ & H3 & _); [lia|].
  pose proof (pq_conserve_run (Pop <$> xs) q) as Hperm.
  assert (Hnopush : pushed (run (Pop <$> xs) q).1 = []).
  { clear. revert q. induction xs as [|x xs IH]; intros q; [done|].
    cbn [fmap list_fmap]. rewrite pq_run_cons. cbn [fst]. 
    rewrite pq_pushed_cons, IH. done. }
  rewrite Hnopush, app_nil_r in Hperm.
  assert (Hnil : (run (Pop <$> xs) q).2 = []).
  { apply Permutation_length in Hperm. rewrite length_app, H1, Hlen in Hperm.
    apply length_zero_iff_nil. lia. }
  rewrite Hnil in *. rewrite app_nil_r in Hperm. by split_and!.
Qed.

Lemma pq_drain_sorted_witness :
  popped (run (Pop <$> [0; 0; 0; 0]) [3; 9; 4; 9]).1 = [9; 9; 4; 3] /\
  Sorted Z.ge (popped (run (Pop <$> [0; 0; 0; 0]) [3; 9; 4; 9]).1) /\
  (run (Pop <$> [0; 0; 0; 0]) [3; 9; 4; 9]).2 = [].
Proof.
  destruct (pq_drain_sorted [0; 0; 0; 0] 0 [3; 9; 4; 9] eq_refl)
    as (_ & H2 & H3 & _).
  split; [reflexivity|]. split; [exact H2 | exact H3].
Defined.

End priority_queue_facts.

(** * The linked list *)

Section linked_list_facts.
Import LinkedList.
Context {T : Type}.
Variable alloc : gmap positive (Node T) -> positive.
Hypothesis alloc_fresh : forall heap, heap !! alloc heap = None.
Implicit Types (s : state T) (xs : list T) (ops : list (op T)).

Lemma represents_construct : represents (@construct T) [].
Proof. done. Qed.

Lemma represents_nil s : represents s [] -> s = construct.
Proof. destruct s as [p h]. unfold represents. cbn. by intros [-> ->]. Qed.

Lemma represents_push (v : T) s xs :
  represents s xs -> represents (push_front alloc v s) (v :: xs).
Proof.
  intros Hs. exists (alloc (nodes s)), (head s). cbn [push_front head nodes].
  split; [done|]. split; [apply lookup_insert_eq|].
  by rewrite delete_insert_id by apply alloc_fresh.
Qed.

Lemma pop_front_cons (y x : T) s xs :
  represents s (x :: xs) ->
  exists s', pop_front y s = Ok (true, x, s') /\ represents s' xs.
Proof.
  intros (l & nxt & Hhead & Hl & Hrest). unfold pop_front.
  rewrite Hhead, Hl. by eexists.
Qed.

Lemma pop_front_nil (y : T) s :
  represents s [] -> pop_front y s = Ok (false, y, s).
Proof. intros [Hhead _]. unfold pop_front. by rewrite Hhead. Qed.

Lemma empty_represents s xs :
  represents s xs -> empty s = match xs with [] => true | _ => false end.
Proof.
  unfold empty. destruct xs as [|x xs].
  - by intros [-> _].
  - by intros (l & nxt & -> & _).
Qed.

Lemma step_refines (o : op T) s xs :
  represents s xs ->
  exists s', step alloc o s = Ok ((stack_step o xs).1, s') /\
             represents s' (stack_step o xs).2.
Proof.
  intros Hs. destruct o as [v|y|].
  - eexists. split; [done|]. by apply represents_push.
  - destruct xs as [|x xs]; cbn [step stack_step fst snd].
    + rewrite (pop_front_nil y s Hs). eexists. split; [done|].
      by rewrite (represents_nil s Hs).
    + destruct (pop_front_cons y x s xs Hs) as (s' & -> & Hs').
      by eexists.
  - cbn [step stack_step fst snd]. rewrite (empty_represents s xs Hs).
    by eexists.
Qed.

Lemma stack_run_cons (o : op T) ops xs :
  stack_run (o :: ops) xs =
    ((o, (stack_step o xs).1) :: (stack_run ops (stack_step o xs).2).1,
     (stack_run ops (stack_step o xs).2).2).
Proof. cbn [stack_run]. by destruct (stack_step o xs), (stack_run ops _). Qed.

Lemma run_refines ops s xs :
  represents s xs ->
  exists s', run alloc ops s = Ok ((stack_run ops xs).1, s') /\
             represents s' (stack_run ops xs).2.
Proof.
  revert s xs. induction ops as [|o ops IH]; intros s xs Hs.
  - by exists s.
  - destruct (step_refines o s xs Hs) as (s1 & Hstep & Hs1).
    destruct (IH s1 _ Hs1) as (s2 & Hrun & Hs2).
    exists s2. rewrite stack_run_cons. cbn [run fst snd].
    by rewrite Hstep, Hrun.
Qed.

Lemma is_list_size (heap : gmap positive (Node T)) p xs :
  is_list heap p xs -> base.size heap = length xs.
Proof.
  revert heap p. induction xs as [|x xs IH]; intros heap p.
  - intros [_ ->]. apply map_size_empty.
  - intros (l & nxt & _ & Hl & Hrest). specialize (IH _ _ Hrest).
    rewrite map_size_delete, Hl in IH. cbn [length].
    assert (base.size heap <> 0%nat).
    { intros Hz. apply map_size_empty_inv in Hz. by rewrite Hz in Hl. }
    lia.
Qed.

Lemma size_loop_is_list
    (heap big : gmap positive (Node T)) p xs (fuel : nat) (c : Z) :
  is_list heap p xs -> heap ⊆ big -> (length xs <= fuel)%nat ->
  0 <= c < 2 ^ 64 ->
  size_loop fuel big p c = Ok ((c + Z.of_nat (length xs)) mod 2 ^ 64).
Proof.
  revert heap p fuel c. induction xs as [|x xs IH]; intros heap p fuel c.
  - intros [-> _] _ _ Hc. destruct fuel; cbn; by rewrite Z.add_0_r, Z.mod_small.
  - intros (l & nxt & -> & Hl & Hrest) Hsub Hfuel Hc. cbn [length] in Hfuel.
    destruct fuel as [|fuel]; [lia|]. cbn [size_loop].
    rewrite (lookup_weaken _ _ _ _ Hl Hsub). cbn [next].
    rewrite (IH (delete l heap) nxt fuel); [|done| |lia|].
    + f_equal. rewrite Zplus_mod_idemp_l. f_equal. cbn [length]. lia.
    + etrans; [apply delete_subseteq | done].
    + apply Z.mod_pos_bound. lia.
Qed.

Lemma destroy_is_list (fuel : nat) (v : T) s xs :
  represents s xs -> (length xs <= fuel)%nat -> destroy fuel v s = Ok construct.
Proof.
  revert s fuel. induction xs as [|x xs IH]; intros s fuel Hs Hfuel.
  - rewrite (represents_nil s Hs). by destruct fuel.
  - cbn [length] in Hfuel. destruct fuel as [|fuel]; [lia|].
    cbn [destroy]. rewrite (empty_represents s _ Hs).
    destruct (pop_front_cons v x s xs Hs) as (s' & -> & Hs').
    apply (IH s'); [done | lia].
Qed.

(** X16 (linked list: a stack that never faults).  With an allocator that
    returns unused addresses, every sequence of calls on a freshly
    constructed list runs without dereferencing a dangling or null pointer
    and returns, call by call, what a stack returns: [pop_front] gives the
    most recently pushed value not yet popped, and on the empty list it
    returns [false] and leaves the caller's variable alone.  The nodes on the
    heap are exactly the nodes of the list, one per held value. *)
Theorem linked_list_is_a_stack ops :
  exists s,
    run alloc ops construct = Ok ((stack_run ops []).1, s) /\
    represents s (stack_run ops []).2 /\
    base.size (nodes s) = length (stack_run ops []).2.
Proof.
  destruct (run_refines ops construct [] represents_construct)
    as (s & Hrun & Hs).
  exists s. split; [done|]. split; [done|]. by apply (is_list_size _ (head s)).
Qed.

Lemma stack_pushes (vs : list T) (rest : list (op T)) xs :
  stack_run ((PushFront <$> vs) ++ rest) xs =
    (((fun v => (PushFront v, RVoid)) <$> vs) ++
     (stack_run rest (rev vs ++ xs)).1,
     (stack_run rest (rev vs ++ xs)).2).
Proof.
  revert xs. induction vs as [|v vs IH]; intros xs.
  - cbn [fmap list_fmap app rev]. by destruct (stack_run rest xs).
  - cbn [fmap list_fmap app rev]. rewrite stack_run_cons.
    cbn [stack_step fst snd]. by rewrite IH, <- app_assoc.
Qed.

Lemma stack_pops (ys zs : list T) xs :
  length ys = length zs ->
  stack_run (PopFront <$> ys) (zs ++ xs) =
    (zip_with (fun y z => (PopFront y, RPop true z)) ys zs, xs).
Proof.
  revert zs. induction ys as [|y ys IH]; intros [|z zs] Hlen;
    try discriminate Hlen; [done|].
  cbn [fmap list_fmap app zip_with]. rewrite stack_run_cons.
  cbn [stack_step fst snd]. rewrite IH by (by injection Hlen). done.
Qed.

(** X17 (linked list: last in, first out).  Pushing values and then
    popping as many returns them in the reverse order of the pushes, and
    leaves the list as it was at construction: [head] is null and every node
    has been deleted. *)
Theorem linked_list_lifo (vs ys : list T) :
  length ys = length vs ->
  run alloc ((PushFront <$> vs) ++ (PopFront <$> ys)) construct =
    Ok (((fun v => (PushFront v, RVoid)) <$> vs) ++
        zip_with (fun y v => (PopFront y, RPop true v)) ys (rev vs),
        construct).
Proof.
  intros Hlen.
  destruct (run_refines ((PushFront <$> vs) ++ (PopFront <$> ys))
              construct [] represents_construct) as (s & Hrun & Hs).
  rewrite stack_pushes in Hrun, Hs.
  pose proof (stack_pops ys (rev vs) []) as Hpops.
  rewrite length_rev in Hpops. specialize (Hpops Hlen).
  rewrite Hpops in Hrun, Hs. cbn [fst snd] in Hrun, Hs.
  by rewrite Hrun, (represents_nil s Hs).
Qed.

Lemma reachable_represents ops (h : list (op T * result T)) s :
  run alloc ops construct = Ok (h, s) ->
  h = (stack_run ops []).1 /\ represents s (stack_run ops []).2.
Proof.
  intros Hrun.
  destruct (run_refines ops construct [] represents_construct)
    as (s' & Hrun' & Hs').
  rewrite Hrun in Hrun'. by injection Hrun' as -> ->.
Qed.

(** X18 (linked list: size counts the held values).  On a list reached by
    any sequence of calls, the loop of [size()] ends without fault as soon
    as it is allowed as many iterations as the list holds values, and
    returns their number (as a [size_t]): the pushes minus the successful
    pops. *)
Theorem linked_list_size ops (h : list (op T * result T)) s (fuel : nat) :
  run alloc ops construct = Ok (h, s) ->
  (length (stack_run ops []).2 <= fuel)%nat ->
  size fuel s = Ok (Z.of_nat (length (stack_run ops []).2) mod 2 ^ 64).
Proof.
  intros Hrun Hfuel. destruct (reachable_represents ops h s Hrun) as [_ Hs].
  unfold size.
  by rewrite (size_loop_is_list (nodes s) (nodes s) (head s) _ fuel 0 Hs).
Qed.

(** X19 (linked list: the destructor frees everything).  On a list reached
    by any sequence of calls, the destructor's loop ends without fault
    within as many iterations as the list holds values, and leaves no node
    on the heap. *)
Theorem linked_list_destructor
    ops (h : list (op T * result T)) s (fuel : nat) (v : T) :
  run alloc ops construct = Ok (h, s) ->
  (length (stack_run ops []).2 <= fuel)%nat ->
  destroy fuel v s = Ok {| head := None; nodes := ∅ |}.
Proof.
  intros Hrun Hfuel. destruct (reachable_represents ops h s Hrun) as [_ Hs].
  by apply (destroy_is_list fuel v s _ Hs).
Qed.

End linked_list_facts.

Section linked_list_witnesses.
Import LinkedList.

Lemma next_free_fresh (heap : gmap positive (Node Z)) :
  heap !! next_free heap = None.
Proof. apply not_elem_of_dom, is_fresh. Qed.

Lemma linked_list_is_a_stack_witness :
  exists s,
    run next_free [PushFront 1; PushFront 2; PopFront 0; Empty; PopFront 0;
                   PopFront 7; Empty] construct =
      Ok ([(PushFront 1, RVoid); (PushFront 2, RVoid);
           (PopFront 0, RPop true 2); (Empty, RBool false);
           (PopFront 0, RPop true 1); (PopFront 7, RPop false 7);
           (Empty, RBool true)], s) /\
    represents s [] /\ base.size (nodes s) = 0%nat.
Proof.
  apply (linked_list_is_a_stack next_free next_free_fresh
           [PushFront 1; PushFront 2; PopFront 0; Empty; PopFront 0;
            PopFront 7; Empty]).
Defined.

Lemma linked_list_lifo_witness :
  run next_free
    [PushFront 1; PushFront 2; PushFront 3; PopFront 0; PopFront 0; PopFront 0]
    construct =
    Ok ([(PushFront 1, RVoid); (PushFront 2, RVoid); (PushFront 3, RVoid);
         (PopFront 0, RPop true 3); (PopFront 0, RPop true 2);
         (PopFront 0, RPop true 1)], construct).
Proof.
  apply (linked_list_lifo next_free next_free_fresh [1; 2; 3] [0; 0; 0]).
  reflexivity.
Defined.

Lemma linked_list_size_witness :
  exists h s,
    run next_free [PushFront 1; PushFront 2; PushFront 3; PopFront 0]
      construct = Ok (h, s) /\
    size 2 s = Ok 2.
Proof.
  destruct (run_refines next_free next_free_fresh
              [PushFront 1; PushFront 2; PushFront 3; PopFront 0]
              construct [] (@represents_construct Z)) as (s & Hrun & _).
  eexists _, s. split; [exact Hrun|].
  apply (linked_list_size next_free next_free_fresh _ _ s 2 Hrun).
  cbn. lia.
Defined.

Lemma linked_list_destructor_witness :
  exists h s,
    run next_free [PushFront 1; PushFront 2; PushFront 3; PopFront 0]
      construct = Ok (h, s) /\
    destroy 2 0 s = Ok {| head := None; nodes := ∅ |}.
Proof.
  destruct (run_refines next_free next_free_fresh
              [PushFront 1; PushFront 2; PushFront 3; PopFront 0]
              construct [] (@represents_construct Z)) as (s & Hrun & _).
  eexists _, s. split; [exact Hrun|].
  apply (linked_list_destructor next_free next_free_fresh _ _ s 2 0 Hrun).
  cbn. lia.
Defined.

End linked_list_witnesses.

(** * The mutex makes the critical sections atomic *)

Section statements_facts.
Import Statements.















End statements_facts.
